(** * coverage-llm-gen: the task poller and the SSE hub

    A shallow embedding of
      - [src/tasks/tasks.service.ts]: the cron-driven poller
        [handleGenerateImprovementsCron] and the pipeline
        [handleGenerateImprovements];
      - [client/app/contexts/SSEContext.tsx]: the event-source provider
        ([connect], [notifyListeners], [addEventListener],
        [removeEventListener]) and the payload type guards.

    Asynchronous functions are embedded in a state-and-exception monad:
    an awaited promise either fulfils with a value or rejects, and a
    rejection propagates until a [try]/[catch] stops it.  State changes made
    before a rejection stay (there is no rollback in the source). *)

From Stdlib Require Import ZArith String Ascii List Lia Bool.
From stdpp Require Import base gmap list strings.
Import ListNotations.
Open Scope string_scope.
Open Scope list_scope.

(** ** Awaited results and the monad *)

(** What an awaited call (or a call that may throw) produces. *)
Inductive outcome (A : Type) : Type :=
| Returns (a : A)
| Throws (reason : string).
Arguments Returns {A} a.
Arguments Throws {A} reason.

(** State passing with exceptions over a state type [S]. *)
Definition M (S A : Type) : Type := S -> outcome A * S.

Definition ret {S A} (a : A) : M S A := fun s => (Returns a, s).

Definition bind {S A B} (c : M S A) (k : A -> M S B) : M S B :=
  fun s =>
    match c s with
    | (Returns a, s') => k a s'
    | (Throws e, s') => (Throws e, s')
    end.

(** [try { c } catch (error) { h error }] *)
Definition try_catch {S A} (c : M S A) (h : string -> M S A) : M S A :=
  fun s =>
    match c s with
    | (Returns a, s') => (Returns a, s')
    | (Throws e, s') => h e s'
    end.

Definition modify {S} (f : S -> S) : M S unit := fun s => (Returns tt, f s).

Definition gets {S A} (f : S -> A) : M S A := fun s => (Returns (f s), s).

(** Awaiting a call whose result the environment has already decided. *)
Definition await {S A} (o : outcome A) : M S A := fun s => (o, s).

Declare Scope js_scope.
Delimit Scope js_scope with js.
Notation "x <- c ;; k" := (bind c (fun x => k))
  (at level 100, c at next level, right associativity) : js_scope.
Notation "c ;; k" := (bind c (fun _ => k))
  (at level 100, right associativity) : js_scope.
Open Scope js_scope.

(** [neverthrow]'s [Result<T, E>]; [result.isErr()] is a match on it. *)
Inductive Result (T E : Type) : Type :=
| ok (value : T)
| err (error : E).
Arguments ok {T E} value.
Arguments err {T E} error.

(** ** JavaScript string helpers *)

Fixpoint drop_string (n : nat) (s : string) : string :=
  match n, s with
  | O, _ => s
  | S n', String _ s' => drop_string n' s'
  | S _, EmptyString => EmptyString
  end.

(** [s.replace(pattern, replacement)] with a string pattern: the first
    occurrence of [pattern] is replaced, and [s] is returned unchanged when
    there is none.  (The replacements used by the source contain no [$], so
    no replacement pattern is expanded.) *)
Fixpoint replace (pattern replacement s : string) : string :=
  if String.prefix pattern s
  then replacement +:+ drop_string (String.length pattern) s
  else match s with
       | EmptyString => EmptyString
       | String c s' => String c (replace pattern replacement s')
       end.

(** [s.endsWith(suffix)], used to say what the extension of a path is. *)
Definition endsWith (s suffix : string) : bool :=
  (String.length suffix <=? String.length s)%nat &&
  String.eqb (drop_string (String.length s - String.length suffix) s) suffix.

(** ** The task poller (src/tasks/tasks.service.ts) *)

Module Tasks.

(** Status of a file record, the values the service reads and writes:
    ['queued'], ['processing'], ['processed'], ['error']. *)
Inductive Status : Type := Queued | Processing | Processed | Error.

#[export] Instance Status_eq_dec : EqDecision Status.
Proof. solve_decision. Defined.

(** Modelled from the spec: the row type [RepoFile] of the [files] table
    ([src/db/schema] is not among the sources).  The spec's task record has
    the fields id, repoId, path and status; the service reads [repoId],
    [path] and [status]. *)
Record RepoFile : Type := {
  fileId : Z;
  repoId : Z;
  path : string;
  status : Status;
}.

(** Modelled from the spec: the row type of the [repos] table (id, url). *)
Record Repo : Type := {
  repo_id : Z;
  url : string;
}.

(** What the service does to the outside world, in the order it does it.
    A call is recorded when it is made, whether or not it succeeds. *)
Inductive Effect : Type :=
| EvCp (src dst : string)
| EvExec (command : string)
| EvReadFile (file : string)
| EvGenerate (testFileContents fileContents : string)
           (response : outcome (option string))
| EvWriteFile (file data : string)
| EvSubmitPR (newPath filePath uuid : string).

(** The service's state: the two tables, plus what an observer sees.
    [history] holds the contents of the [files] table after each write, the
    latest first, so that the status a record had between two writes of one
    tick can be stated; [effects] and [logs] are the calls made and the
    lines logged, the latest last.  The tables are held in memory: a query
    or a write on them does not reject. *)
Record Server : Type := {
  files : list RepoFile;
  repos : list Repo;
  history : list (list RepoFile);
  effects : list Effect;
  logs : list string;
}.

(** The collaborators of one run of the pipeline.  None of them is among
    the sources ([RepoService], [GenaiService], [GithubService],
    [node:fs], [node:child_process], [node:path], [crypto]), so each is a
    parameter; a call that can reject returns an [outcome]. *)
Record World : Type := {
  getRepoNameFromUrl : string -> Result string string;
  path_join : string -> string -> string;
  randomUUID : string;
  fs_cp : string -> string -> outcome unit;
  execAsync : string -> outcome unit;
  fs_readFile : string -> outcome string;
  generateSuggestions : string -> string -> outcome (option string);
  fs_writeFile : string -> string -> outcome unit;
  submitPR : string -> string -> string -> outcome (Result unit string);
}.

Definition set_status (st : Status) (f : RepoFile) : RepoFile :=
  {| fileId := fileId f; repoId := repoId f; path := path f; status := st |}.

(** [db.query.files.findFirst({ where: eq(files.status, 'queued') })] *)
Definition findFirstQueued : M Server (option RepoFile) :=
  gets (fun s => find (fun f => bool_decide (status f = Queued)) (files s)).

(** [db.query.repos.findFirst({ where: eq(repos.id, id) })] *)
Definition findFirstRepo (id : Z) : M Server (option Repo) :=
  gets (fun s => find (fun r => Z.eqb (repo_id r) id) (repos s)).

(** The table after [update(files).set({ status }).where(eq(files.path, p))]:
    every row whose path is [p] is written. *)
Definition update_where_path (p : string) (st : Status)
    (rows : list RepoFile) : list RepoFile :=
  map (fun f => if String.eqb (path f) p then set_status st f else f) rows.

Definition updateStatus (p : string) (st : Status) : M Server unit :=
  modify (fun s =>
    let rows := update_where_path p st (files s) in
    {| files := rows; repos := repos s; history := rows :: history s;
       effects := effects s; logs := logs s |}).

Definition log (line : string) : M Server unit :=
  modify (fun s =>
    {| files := files s; repos := repos s; history := history s;
       effects := effects s; logs := logs s ++ [line] |}).

(** An awaited call to a collaborator: recorded, then its outcome. *)
Definition call {A} (ev : Effect) (o : outcome A) : M Server A :=
  modify (fun s =>
    {| files := files s; repos := repos s; history := history s;
       effects := effects s ++ [ev]; logs := logs s |});;
  await o.

(** [!response] for a response that is a string, [undefined] or [null]. *)
Definition falsy (response : option string) : bool :=
  match response with
  | None => true
  | Some s => String.eqb s EmptyString
  end.

Definition testPath (filePath : string) : string :=
  replace ".ts" ".test.ts" filePath.

Definition checkoutCommand (newPath uuid : string) : string :=
  "cd " +:+ newPath +:+ " && git checkout -b enhance/tests-" +:+ uuid +:+ " ".

Definition commitCommand (newPath filePath uuid : string) : string :=
  "cd " +:+ newPath +:+ " && git add . && git commit -m " +:+
  String (ascii_of_nat 34) "Enhanced test coverage for " +:+ filePath +:+
  String (ascii_of_nat 34) " && git push origin enhance/tests-" +:+ uuid.

Definition handleGenerateImprovements (w : World) (file : RepoFile)
    : M Server (Result unit string) :=
  log "Starting handleGenerateImprovements";;
  repo <- findFirstRepo (repoId file);;
  match repo with
  | None => ret (err "Repo not found")
  | Some repo =>
    match getRepoNameFromUrl w (url repo) with
    | err _ => ret (err "Repo name not found")
    | ok repoName =>
      let filePath := path file in
      let existingPath := path_join w "./repos" repoName in
      let uuid := randomUUID w in
      let newPath := path_join w "./repos" (repoName +:+ "-" +:+ uuid) in
      call (EvCp existingPath newPath) (fs_cp w existingPath newPath);;
      call (EvExec (checkoutCommand newPath uuid))
           (execAsync w (checkoutCommand newPath uuid));;
      testFileContents <-
        call (EvReadFile (path_join w newPath (testPath filePath)))
             (fs_readFile w (path_join w newPath (testPath filePath)));;
      fileContents <-
        call (EvReadFile (path_join w newPath filePath))
             (fs_readFile w (path_join w newPath filePath));;
      response <-
        call (EvGenerate testFileContents fileContents
                (generateSuggestions w testFileContents fileContents))
             (generateSuggestions w testFileContents fileContents);;
      if falsy response then ret (err "no response returned")
      else
        let response := default EmptyString response in
        call (EvWriteFile (path_join w newPath (testPath filePath)) response)
             (fs_writeFile w (path_join w newPath (testPath filePath)) response);;
        call (EvExec (commitCommand newPath filePath uuid))
             (execAsync w (commitCommand newPath filePath uuid));;
        submitResult <-
          call (EvSubmitPR newPath filePath uuid)
               (submitPR w newPath filePath uuid);;
        match submitResult with
        | err e => ret (err ("PR submission failed: " +:+ e))
        | ok _ => ret (ok tt)
        end
    end
  end.

(** One firing of the cron job. *)
Definition handleGenerateImprovementsCron (w : World) : M Server unit :=
  file <- findFirstQueued;;
  match file with
  | None => log "no files queued for improvements"
  | Some file =>
    updateStatus (path file) Processing;;
    result <- handleGenerateImprovements w file;;
    match result with
    | err e =>
      log ("Error generating improvements " +:+ e);;
      updateStatus (path file) Error
    | ok _ => updateStatus (path file) Processed
    end
  end.

(** A firing as the scheduler sees it: the job's promise settles either
    way, and the next firing starts from the state it left. *)
Definition tick (w : World) (s : Server) : Server :=
  snd (handleGenerateImprovementsCron w s).

Fixpoint ticks (ws : list World) (s : Server) : Server :=
  match ws with
  | [] => s
  | w :: ws' => ticks ws' (tick w s)
  end.

(** The statuses the row at position [i] has had, the earliest first: the
    one in [initial], then the one after each write. *)
Definition status_history (initial : list RepoFile) (i : nat) (s : Server)
    : list (option Status) :=
  map (fun rows => status <$> rows !! i) (initial :: rev (history s)).

(** One step along queued -> processing -> {processed | error}. *)
Definition forward (a b : Status) : bool :=
  match a, b with
  | Queued, Processing => true
  | Processing, Processed => true
  | Processing, Error => true
  | _, _ => false
  end.

(** The calls a run made: those in [s'] that were not yet in [s]. *)
Definition new_effects (s s' : Server) : list Effect :=
  drop (length (effects s)) (effects s').

(** The state in which the pipeline starts: [file] has just been marked. *)
Definition marked (file : RepoFile) (s : Server) : Server :=
  snd (updateStatus (path file) Processing s).

(** From one table to the next, a status stays or takes one step forward. *)
Definition step_ok (older newer : option Status) : Prop :=
  older = newer \/
  exists x y, older = Some x /\ newer = Some y /\ forward x y = true.

(** Every write recorded in [newest_first] (the tables after each write,
    the initial table last) left the record at position [i] where it was
    or took it one step forward. *)
Fixpoint forward_only (i : nat) (newest_first : list (list RepoFile)) : Prop :=
  match newest_first with
  | newer :: (older :: _) as rest =>
    step_ok (status <$> older !! i) (status <$> newer !! i) /\
    forward_only i rest
  | _ => True
  end.

(** What every firing keeps, with one record per path: the latest table is
    the current one, the paths are those of the initial table, and the
    record at position [i] has only moved forward. *)
Definition inv (initial : list RepoFile) (i : nat) (s : Server) : Prop :=
  hd initial (history s) = files s /\
  map path (files s) = map path initial /\
  forward_only i (history s ++ [initial]).

(** *** What the properties of the poller are stated with *)

(** The number of records still queued. *)
Definition queued_count (rows : list RepoFile) : nat :=
  length (List.filter (fun f => bool_decide (status f = Queued)) rows).

(** What identifies a record, as opposed to its status. *)
Definition identity (f : RepoFile) : Z * Z * string :=
  (fileId f, repoId f, path f).

(** The text an awaited read gives, when it gives one. *)
Definition contents (o : outcome string) : string :=
  match o with
  | Returns text => text
  | Throws _ => EmptyString
  end.

(** The calls of a run of the pipeline that goes all the way, in the order
    of the source, for a repository named [repoName]. *)
Definition plan (w : World) (repoName : string) (file : RepoFile)
    : list Effect :=
  let filePath := path file in
  let existingPath := path_join w "./repos" repoName in
  let uuid := randomUUID w in
  let newPath := path_join w "./repos" (repoName +:+ "-" +:+ uuid) in
  let testFileContents :=
    contents (fs_readFile w (path_join w newPath (testPath filePath))) in
  let fileContents := contents (fs_readFile w (path_join w newPath filePath)) in
  let response := generateSuggestions w testFileContents fileContents in
  [ EvCp existingPath newPath;
    EvExec (checkoutCommand newPath uuid);
    EvReadFile (path_join w newPath (testPath filePath));
    EvReadFile (path_join w newPath filePath);
    EvGenerate testFileContents fileContents response;
    EvWriteFile (path_join w newPath (testPath filePath))
      match response with
      | Returns (Some text) => text
      | _ => EmptyString
      end;
    EvExec (commitCommand newPath filePath uuid);
    EvSubmitPR newPath filePath uuid ].

(** The plan of the run for [file] in state [s]: empty when the repository
    of the file, or its name, is not found. *)
Definition plan_of (w : World) (s : Server) (file : RepoFile) : list Effect :=
  match find (fun r => Z.eqb (repo_id r) (repoId file)) (repos s) with
  | Some repo =>
    match getRepoNameFromUrl w (url repo) with
    | ok repoName => plan w repoName file
    | err _ => []
    end
  | None => []
  end.

(** The call [e] is one the pipeline does not go past: it rejected, or it
    is the call to the AI adapter and what it returned is falsy. *)
Definition failed (w : World) (e : Effect) : bool :=
  match e with
  | EvCp src dst =>
    if fs_cp w src dst is Throws _ then true else false
  | EvExec command =>
    if execAsync w command is Throws _ then true else false
  | EvReadFile file =>
    if fs_readFile w file is Throws _ then true else false
  | EvGenerate _ _ response =>
    match response with
    | Returns answer => falsy answer
    | Throws _ => true
    end
  | EvWriteFile file data =>
    if fs_writeFile w file data is Throws _ then true else false
  | EvSubmitPR newPath filePath uuid =>
    if submitPR w newPath filePath uuid is Throws _ then true else false
  end.

(** The calls of [l] up to the first one that [stop]s, that one
    included. *)
Fixpoint through_first (stop : Effect -> bool) (l : list Effect)
    : list Effect :=
  match l with
  | [] => []
  | e :: l' => e :: (if stop e then [] else through_first stop l')
  end.

(** The table after the writes [sts] of one firing, all keyed by [p]. *)
Definition writes (p : string) (sts : list Status) (rows : list RepoFile)
    : list RepoFile :=
  fold_left (fun rows st => update_where_path p st rows) sts rows.

End Tasks.

(** ** The event-source provider (client/app/contexts/SSEContext.tsx) *)

Module SSE.

Inductive SSEEventType : Type :=
| task_progress
| task_started
| task_completed
| task_error
| heartbeat.

#[export] Instance SSEEventType_eq_dec : EqDecision SSEEventType.
Proof. solve_decision. Defined.

#[export] Instance SSEEventType_countable : Countable SSEEventType.
Proof.
  refine (inj_countable'
    (fun k => match k with
              | task_progress => 0%nat | task_started => 1%nat
              | task_completed => 2%nat | task_error => 3%nat
              | heartbeat => 4%nat end)
    (fun n => match n with
              | 0%nat => task_progress | 1%nat => task_started
              | 2%nat => task_completed | 3%nat => task_error
              | _ => heartbeat end) _).
  intros []; reflexivity.
Defined.

(** The name the server gives the kind on the wire. *)
Definition eventName (k : SSEEventType) : string :=
  match k with
  | task_progress => "task-progress"
  | task_started => "task-started"
  | task_completed => "task-completed"
  | task_error => "task-error"
  | heartbeat => "heartbeat"
  end.

(** The order in which [connect] attaches its handlers. *)
Definition eventTypes : list SSEEventType :=
  [task_progress; task_started; task_completed; task_error; heartbeat].

#[local] Set Warnings "-register-all".

(** A decoded payload: what [JSON.parse] returns, and [undefined] for what
    reading an absent property gives.  Numbers are only ever tested for
    being zero, so an integer stands for the number. *)
Inductive value : Type :=
| VUndefined
| VNull
| VBool (b : bool)
| VNumber (n : Z)
| VString (s : string)
| VArray (items : list value)
| VObject (properties : list (string * value)).

Record SSEEvent : Type := {
  type : SSEEventType;
  data : value;
}.

(** A listener is a callback; the registry compares callbacks by identity. *)
Definition EventListener : Type := nat.

(** The provider: its React state, its refs, and what an observer of the
    page sees (the console, the listener calls made, the delays handed to
    [setTimeout], the timers cleared and the event sources closed). *)
Record Hub : Type := {
  isConnected : bool;
  lastEvent : option SSEEvent;
  connectionError : option string;
  eventSourceRef : option nat;
  listenersRef : gmap SSEEventType (list EventListener);
  reconnectTimeoutRef : option nat;
  reconnectAttemptsRef : nat;
  console : list string;
  invoked : list (EventListener * SSEEvent);
  scheduled : list Z;
  cleared : list nat;
  closed : list nat;
  opened : nat;
}.

(** What the page around the provider does.  [JSON.parse] throws on text
    that is not JSON; a listener returns or throws; [new EventSource(url)]
    returns or throws.  What a listener does besides is its own business:
    it is not given the provider's state, and a listener that subscribes or
    unsubscribes while it is being notified is outside the model. *)
Record Env : Type := {
  JSON_parse : string -> outcome value;
  listener_call : EventListener -> SSEEvent -> outcome unit;
  new_EventSource : string -> outcome unit;
}.

Definition initialHub : Hub :=
  {| isConnected := false; lastEvent := None; connectionError := None;
     eventSourceRef := None; listenersRef := ∅;
     reconnectTimeoutRef := None; reconnectAttemptsRef := 0;
     console := []; invoked := []; scheduled := []; cleared := [];
     closed := []; opened := 0 |}.

Definition setIsConnected (b : bool) : M Hub unit :=
  modify (fun h =>
    {| isConnected := b; lastEvent := lastEvent h;
       connectionError := connectionError h;
       eventSourceRef := eventSourceRef h; listenersRef := listenersRef h;
       reconnectTimeoutRef := reconnectTimeoutRef h;
       reconnectAttemptsRef := reconnectAttemptsRef h;
       console := console h; invoked := invoked h;
       scheduled := scheduled h; cleared := cleared h; closed := closed h;
       opened := opened h |}).

Definition setLastEvent (e : option SSEEvent) : M Hub unit :=
  modify (fun h =>
    {| isConnected := isConnected h; lastEvent := e;
       connectionError := connectionError h;
       eventSourceRef := eventSourceRef h; listenersRef := listenersRef h;
       reconnectTimeoutRef := reconnectTimeoutRef h;
       reconnectAttemptsRef := reconnectAttemptsRef h;
       console := console h; invoked := invoked h;
       scheduled := scheduled h; cleared := cleared h; closed := closed h;
       opened := opened h |}).

Definition setConnectionError (e : option string) : M Hub unit :=
  modify (fun h =>
    {| isConnected := isConnected h; lastEvent := lastEvent h;
       connectionError := e;
       eventSourceRef := eventSourceRef h; listenersRef := listenersRef h;
       reconnectTimeoutRef := reconnectTimeoutRef h;
       reconnectAttemptsRef := reconnectAttemptsRef h;
       console := console h; invoked := invoked h;
       scheduled := scheduled h; cleared := cleared h; closed := closed h;
       opened := opened h |}).

Definition setListeners (m : gmap SSEEventType (list EventListener))
    : M Hub unit :=
  modify (fun h =>
    {| isConnected := isConnected h; lastEvent := lastEvent h;
       connectionError := connectionError h;
       eventSourceRef := eventSourceRef h; listenersRef := m;
       reconnectTimeoutRef := reconnectTimeoutRef h;
       reconnectAttemptsRef := reconnectAttemptsRef h;
       console := console h; invoked := invoked h;
       scheduled := scheduled h; cleared := cleared h; closed := closed h;
       opened := opened h |}).

Definition setReconnectAttempts (n : nat) : M Hub unit :=
  modify (fun h =>
    {| isConnected := isConnected h; lastEvent := lastEvent h;
       connectionError := connectionError h;
       eventSourceRef := eventSourceRef h; listenersRef := listenersRef h;
       reconnectTimeoutRef := reconnectTimeoutRef h;
       reconnectAttemptsRef := n;
       console := console h; invoked := invoked h;
       scheduled := scheduled h; cleared := cleared h; closed := closed h;
       opened := opened h |}).

(** [console.log] and [console.error] *)
Definition console_log (line : string) : M Hub unit :=
  modify (fun h =>
    {| isConnected := isConnected h; lastEvent := lastEvent h;
       connectionError := connectionError h;
       eventSourceRef := eventSourceRef h; listenersRef := listenersRef h;
       reconnectTimeoutRef := reconnectTimeoutRef h;
       reconnectAttemptsRef := reconnectAttemptsRef h;
       console := console h ++ [line]; invoked := invoked h;
       scheduled := scheduled h; cleared := cleared h; closed := closed h;
       opened := opened h |}).

(** Calling a listener: the call is observed, then it returns or throws. *)
Definition invoke (env : Env) (listener : EventListener) (event : SSEEvent)
    : M Hub unit :=
  modify (fun h =>
    {| isConnected := isConnected h; lastEvent := lastEvent h;
       connectionError := connectionError h;
       eventSourceRef := eventSourceRef h; listenersRef := listenersRef h;
       reconnectTimeoutRef := reconnectTimeoutRef h;
       reconnectAttemptsRef := reconnectAttemptsRef h;
       console := console h; invoked := invoked h ++ [(listener, event)];
       scheduled := scheduled h; cleared := cleared h; closed := closed h;
       opened := opened h |});;
  await (listener_call env listener event).

(** [reconnectTimeoutRef.current = setTimeout(callback, delay)]: the timer's
    handle is its position among the timers set so far. *)
Definition setReconnectTimeout (delay : Z) : M Hub unit :=
  modify (fun h =>
    {| isConnected := isConnected h; lastEvent := lastEvent h;
       connectionError := connectionError h;
       eventSourceRef := eventSourceRef h; listenersRef := listenersRef h;
       reconnectTimeoutRef := Some (length (scheduled h));
       reconnectAttemptsRef := reconnectAttemptsRef h;
       console := console h; invoked := invoked h;
       scheduled := scheduled h ++ [delay]; cleared := cleared h;
       closed := closed h; opened := opened h |}).

(** [clearTimeout(reconnectTimeoutRef.current)] *)
Definition clearReconnectTimeout : M Hub unit :=
  modify (fun h =>
    {| isConnected := isConnected h; lastEvent := lastEvent h;
       connectionError := connectionError h;
       eventSourceRef := eventSourceRef h; listenersRef := listenersRef h;
       reconnectTimeoutRef := reconnectTimeoutRef h;
       reconnectAttemptsRef := reconnectAttemptsRef h;
       console := console h; invoked := invoked h;
       scheduled := scheduled h;
       cleared := cleared h ++ option_list (reconnectTimeoutRef h);
       closed := closed h; opened := opened h |}).

(** [eventSourceRef.current.close()] *)
Definition closeEventSource : M Hub unit :=
  modify (fun h =>
    {| isConnected := isConnected h; lastEvent := lastEvent h;
       connectionError := connectionError h;
       eventSourceRef := eventSourceRef h; listenersRef := listenersRef h;
       reconnectTimeoutRef := reconnectTimeoutRef h;
       reconnectAttemptsRef := reconnectAttemptsRef h;
       console := console h; invoked := invoked h;
       scheduled := scheduled h; cleared := cleared h;
       closed := closed h ++ option_list (eventSourceRef h);
       opened := opened h |}).

(** [eventSourceRef.current = source] *)
Definition setEventSource (source : option nat) : M Hub unit :=
  modify (fun h =>
    {| isConnected := isConnected h; lastEvent := lastEvent h;
       connectionError := connectionError h;
       eventSourceRef := source; listenersRef := listenersRef h;
       reconnectTimeoutRef := reconnectTimeoutRef h;
       reconnectAttemptsRef := reconnectAttemptsRef h;
       console := console h; invoked := invoked h;
       scheduled := scheduled h; cleared := cleared h; closed := closed h;
       opened := opened h |}).

(** [new EventSource(sseUrl)]: a fresh handle, or the constructor throws. *)
Definition newEventSource (env : Env) (sseUrl : string) : M Hub nat :=
  await (new_EventSource env sseUrl);;
  n <- gets opened;;
  modify (fun h =>
    {| isConnected := isConnected h; lastEvent := lastEvent h;
       connectionError := connectionError h;
       eventSourceRef := eventSourceRef h; listenersRef := listenersRef h;
       reconnectTimeoutRef := reconnectTimeoutRef h;
       reconnectAttemptsRef := reconnectAttemptsRef h;
       console := console h; invoked := invoked h;
       scheduled := scheduled h; cleared := cleared h; closed := closed h;
       opened := S (opened h) |});;
  ret n.

(** [list.forEach(f)] / [set.forEach(f)] over the elements in order. *)
Fixpoint forEach {S A} (l : list A) (f : A -> M S unit) : M S unit :=
  match l with
  | [] => ret tt
  | x :: l' => f x;; forEach l' f
  end.

(** [Set.prototype.add]: insertion order is kept, a present element is not
    added again. *)
Definition set_add (l : list EventListener) (x : EventListener)
    : list EventListener :=
  if bool_decide (x ∈ l) then l else l ++ [x].

(** [Set.prototype.delete] *)
Definition set_delete (l : list EventListener) (x : EventListener)
    : list EventListener :=
  List.filter (fun y => negb (Nat.eqb y x)) l.

Definition notifyListeners (env : Env) (event : SSEEvent) : M Hub unit :=
  listeners <- gets (fun h => listenersRef h !! type event);;
  match listeners with
  | Some listeners =>
    forEach listeners (fun listener =>
      try_catch (invoke env listener event)
        (fun error =>
           console_log ("Error in event listener for " +:+
                        eventName (type event) +:+ ": " +:+ error)))
  | None => ret tt
  end.

Definition removeEventListener (type : SSEEventType)
    (listener : EventListener) : M Hub unit :=
  listeners <- gets (fun h => listenersRef h !! type);;
  match listeners with
  | Some listeners =>
    let listeners := set_delete listeners listener in
    m <- gets listenersRef;;
    setListeners (<[type := listeners]> m);;
    if (length listeners =? 0)%nat
    then m <- gets listenersRef;; setListeners (delete type m)
    else ret tt
  | None => ret tt
  end.

(** The closure [addEventListener] returns is
    [removeEventListener type listener]. *)
Definition addEventListener (type : SSEEventType)
    (listener : EventListener) : M Hub unit :=
  m <- gets listenersRef;;
  (if bool_decide (is_Some (m !! type)) then ret tt
   else setListeners (<[type := []]> m));;
  m <- gets listenersRef;;
  setListeners (<[type := set_add (default [] (m !! type)) listener]> m).

(** The numbers the back-off computes with are doubles; the ones it meets
    are integers a double holds exactly, or [+Infinity]. *)
Inductive number : Type :=
| Finite (z : Z)
| Infinity.

(** [Math.pow(2, n)] for a natural [n]: exact up to [2^1023], the largest
    power of two below the largest double, and [+Infinity] beyond. *)
Definition Math_pow2 (n : nat) : number :=
  if (n <=? 1023)%nat then Finite (2 ^ Z.of_nat n) else Infinity.

(** [k * x] for a small integer [k] and [x] a power of two: a double holds
    the product exactly while it is below [2^1024], and the product
    overflows to [+Infinity] from there on. *)
Definition times (k : Z) (x : number) : number :=
  match x with
  | Finite z => if (k * z <? 2 ^ 1024)%Z then Finite (k * z) else Infinity
  | Infinity => Infinity
  end.

(** [Math.min(x, k)] for a finite [k]. *)
Definition Math_min (x : number) (k : Z) : Z :=
  match x with
  | Finite z => Z.min z k
  | Infinity => k
  end.

Definition backoffDelay (reconnectAttempts : nat) : Z :=
  Math_min (times 1000 (Math_pow2 reconnectAttempts)) 30000.

(** [eventSource.onopen] *)
Definition onopen : M Hub unit :=
  console_log "SSE connection established";;
  setIsConnected true;;
  setConnectionError None;;
  setReconnectAttempts 0.

(** [eventSource.onerror]; the callback handed to [setTimeout] is
    [connect]. *)
Definition onerror : M Hub unit :=
  console_log "SSE connection error:";;
  setIsConnected false;;
  setConnectionError (Some "SSE connection failed");;
  attempts <- gets reconnectAttemptsRef;;
  let backoffDelay := backoffDelay attempts in
  setReconnectAttempts (S attempts);;
  console_log "Attempting to reconnect...";;
  setReconnectTimeout backoffDelay.

(** The handler [connect] attaches for [eventType]; [text] is
    [event.data]. *)
Definition onmessage (env : Env) (eventType : SSEEventType) (text : string)
    : M Hub unit :=
  try_catch
    (data <- await (JSON_parse env text);;
     let sseEvent := {| type := eventType; data := data |} in
     setLastEvent (Some sseEvent);;
     notifyListeners env sseEvent)
    (fun error =>
       console_log ("Error parsing SSE event " +:+ eventName eventType +:+
                    ": " +:+ error)).

Definition connect (env : Env) (sseUrl : string) : M Hub unit :=
  current <- gets eventSourceRef;;
  match current with
  | Some _ => closeEventSource
  | None => ret tt
  end;;
  try_catch
    (eventSource <- newEventSource env sseUrl;;
     setEventSource (Some eventSource))
    (fun error =>
       console_log ("Error creating EventSource: " +:+ error);;
       setConnectionError (Some error)).

(** The effect's clean-up, run when the provider unmounts. *)
Definition cleanup : M Hub unit :=
  timeout <- gets reconnectTimeoutRef;;
  match timeout with
  | Some _ => clearReconnectTimeout
  | None => ret tt
  end;;
  current <- gets eventSourceRef;;
  match current with
  | Some _ => closeEventSource;; setEventSource None
  | None => ret tt
  end;;
  setIsConnected false.

(** The state a handler leaves; the event loop drops what it returns. *)
Definition after {A} (c : M Hub A) (h : Hub) : Hub := snd (c h).

(** [n] transport errors in a row, the timer of each firing (and so
    [connect] running again) before the next. *)
Fixpoint failures (env : Env) (sseUrl : string) (n : nat) (h : Hub) : Hub :=
  match n with
  | O => h
  | S n' => after (connect env sseUrl) (after onerror (failures env sseUrl n' h))
  end.

(** A run of incoming events, each handled to completion before the
    next. *)
Fixpoint messages (env : Env) (events : list (SSEEventType * string))
    (h : Hub) : Hub :=
  match events with
  | [] => h
  | (eventType, text) :: events' =>
    messages env events' (after (onmessage env eventType text) h)
  end.

(** The listener calls a run of incoming events is due: for each event
    whose text parses, one call per listener registered for its kind, in
    registration order. *)
Fixpoint deliveries (parse : string -> outcome value)
    (registry : gmap SSEEventType (list EventListener))
    (events : list (SSEEventType * string))
    : list (EventListener * SSEEvent) :=
  match events with
  | [] => []
  | (eventType, text) :: events' =>
    match parse text with
    | Returns data =>
      map (fun listener => (listener, {| type := eventType; data := data |}))
          (default [] (registry !! eventType))
    | Throws _ => []
    end ++ deliveries parse registry events'
  end.

(** *** The type guards *)

(** [ToBoolean] *)
Definition truthy (v : value) : bool :=
  match v with
  | VUndefined | VNull => false
  | VBool b => b
  | VNumber n => negb (n =? 0)%Z
  | VString s => negb (String.eqb s EmptyString)
  | VArray _ | VObject _ => true
  end.

Definition typeof (v : value) : string :=
  match v with
  | VUndefined => "undefined"
  | VNull => "object"
  | VBool _ => "boolean"
  | VNumber _ => "number"
  | VString _ => "string"
  | VArray _ | VObject _ => "object"
  end.

Fixpoint lookup_property (name : string) (properties : list (string * value))
    : value :=
  match properties with
  | [] => VUndefined
  | (name', v) :: properties' =>
    if String.eqb name' name then v else lookup_property name properties'
  end.

(** [v.name], for the names the guards read ([taskId], [repoId],
    [filePath], [repoName], [eventType], [message], [metadata], [error],
    [timestamp]): reading from [undefined] or [null] throws a TypeError, an
    object gives its own property, and a boolean, number, string or array
    has no property of such a name. *)
Definition member (v : value) (name : string) : outcome value :=
  match v with
  | VUndefined | VNull =>
    Throws ("TypeError: Cannot read properties of " +:+
            (if v is VNull then "null" else "undefined"))
  | VObject properties => Returns (lookup_property name properties)
  | VBool _ | VNumber _ | VString _ | VArray _ => Returns VUndefined
  end.

(** [e1 && e2]: [e2] is evaluated only when [e1] is truthy, and the value
    of the expression is the value of the operand evaluated last. *)
Definition js_and (e1 e2 : outcome value) : outcome value :=
  match e1 with
  | Returns v => if truthy v then e2 else Returns v
  | Throws reason => Throws reason
  end.

Notation "a &&& b" := (js_and a b) (at level 40, left associativity).

(** [typeof e === t] *)
Definition typeof_is (e : outcome value) (t : string) : outcome value :=
  match e with
  | Returns v => Returns (VBool (String.eqb (typeof v) t))
  | Throws reason => Throws reason
  end.

(** [e !== undefined] *)
Definition not_undefined (e : outcome value) : outcome value :=
  match e with
  | Returns v => Returns (VBool (if v is VUndefined then false else true))
  | Throws reason => Throws reason
  end.

(** [e === s] for a string literal [s] *)
Definition is_string_literal (e : outcome value) (s : string)
    : outcome value :=
  match e with
  | Returns v =>
    Returns (VBool (if v is VString s' then String.eqb s' s else false))
  | Throws reason => Throws reason
  end.

(** [e?.name] *)
Definition optional_member (e : outcome value) (name : string)
    : outcome value :=
  match e with
  | Returns VUndefined | Returns VNull => Returns VUndefined
  | Returns v => member v name
  | Throws reason => Throws reason
  end.

(** [TaskEventType] *)
Definition SETUP_REPO : string := "setup-repo".
Definition GENERATE_SUGGESTIONS : string := "generate-suggestions".
Definition CREATE_PR : string := "create-pr".
Definition COMPLETE : string := "complete".
Definition ERROR : string := "error".

Definition isTaskProgressEvent (data : value) : outcome value :=
  Returns data &&&
  typeof_is (member data "taskId") "string" &&&
  typeof_is (member data "repoId") "string" &&&
  typeof_is (member data "filePath") "string" &&&
  typeof_is (member data "repoName") "string" &&&
  not_undefined (member data "eventType") &&&
  typeof_is (member data "message") "string".

Definition isTaskStartedEvent (data : value) : outcome value :=
  Returns data &&&
  typeof_is (member data "taskId") "string" &&&
  typeof_is (member data "repoId") "string" &&&
  typeof_is (member data "filePath") "string" &&&
  typeof_is (member data "repoName") "string".

Definition isTaskCompletedEvent (data : value) : outcome value :=
  isTaskProgressEvent data &&&
  is_string_literal (member data "eventType") COMPLETE.

Definition isTaskErrorEvent (data : value) : outcome value :=
  isTaskProgressEvent data &&&
  is_string_literal (member data "eventType") ERROR &&&
  not_undefined (optional_member (member data "metadata") "error").

Definition isHeartbeatEvent (data : value) : outcome value :=
  Returns data &&& member data "timestamp".

(** A guard holds of a payload when it returns a truthy value: that is
    what [if (isTaskProgressEvent(x))] and the [data is T] narrowing test. *)
Definition holds (result : outcome value) : bool :=
  match result with
  | Returns v => truthy v
  | Throws _ => false
  end.

(** *** What the guards are checked against *)

(** The property [name] of a payload as a reader of the payload sees it:
    the object's own property, [undefined] when there is none or when the
    payload is not an object. *)
Definition field (x : value) (name : string) : value :=
  match x with
  | VObject properties => lookup_property name properties
  | _ => VUndefined
  end.

Definition is_string (v : value) : bool :=
  if v is VString _ then true else false.

Definition is_object (v : value) : bool :=
  if v is VObject _ then true else false.

Definition is_defined (v : value) : bool :=
  if v is VUndefined then false else true.

(** What [isTaskProgressEvent] tests, said without reference to evaluation
    order: an object whose [taskId], [repoId], [filePath], [repoName] and
    [message] are strings and whose [eventType] is not [undefined].  This is
    less than the interface [TaskProgressEvent] asks for: the [timestamp]
    and the [metadata] are not looked at, and any [eventType], [null]
    included, will do. *)
Definition progress_shape (x : value) : bool :=
  is_object x &&
  is_string (field x "taskId") && is_string (field x "repoId") &&
  is_string (field x "filePath") && is_string (field x "repoName") &&
  is_defined (field x "eventType") && is_string (field x "message").

Definition is_digit (c : ascii) : bool :=
  (48 <=? nat_of_ascii c)%nat && (nat_of_ascii c <=? 57)%nat.

(** [s] follows [template], where a [d] of the template stands for one
    decimal digit and every other character for itself. *)
Fixpoint matches_template (template s : string) : bool :=
  match template, s with
  | EmptyString, EmptyString => true
  | String t template', String c s' =>
    (if Ascii.eqb t "d" then is_digit c else Ascii.eqb t c) &&
    matches_template template' s'
  | _, _ => false
  end.

(** A [Date] on the wire: [JSON.stringify] writes a date as the string
    [Date.prototype.toISOString] gives, with a four-digit year or a signed
    six-digit one, and [JSON.parse] leaves it a string. *)
Definition is_Date (v : value) : bool :=
  match v with
  | VString s =>
    matches_template "dddd-dd-ddTdd:dd:dd.dddZ" s ||
    matches_template "+dddddd-dd-ddTdd:dd:dd.dddZ" s ||
    matches_template "-dddddd-dd-ddTdd:dd:dd.dddZ" s
  | _ => false
  end.

Definition is_TaskEventType (v : value) : bool :=
  match v with
  | VString s =>
    bool_decide
      (s ∈ [SETUP_REPO; GENERATE_SUGGESTIONS; CREATE_PR; COMPLETE; ERROR])
  | _ => false
  end.

(** An optional property: absent, or of the given kind. *)
Definition optional (kind : value -> bool) (v : value) : bool :=
  if v is VUndefined then true else kind v.

(** The interfaces [TaskProgressEvent], [TaskStartedEvent],
    [TaskCompletedEvent], [TaskErrorEvent] and [HeartbeatEvent], read as
    conditions on a decoded payload. *)
Definition TaskProgressEvent (x : value) : bool :=
  is_object x &&
  is_string (field x "taskId") && is_string (field x "repoId") &&
  is_string (field x "filePath") && is_string (field x "repoName") &&
  is_TaskEventType (field x "eventType") &&
  is_string (field x "message") && is_Date (field x "timestamp") &&
  optional (fun m =>
    is_object m && optional is_string (field m "prUrl") &&
    optional is_string (field m "error")) (field x "metadata").

Definition TaskStartedEvent (x : value) : bool :=
  is_object x &&
  is_string (field x "taskId") && is_string (field x "repoId") &&
  is_string (field x "filePath") && is_string (field x "repoName") &&
  is_Date (field x "timestamp").

Definition TaskCompletedEvent (x : value) : bool :=
  TaskProgressEvent x &&
  (if field x "eventType" is VString s then String.eqb s COMPLETE else false).

Definition TaskErrorEvent (x : value) : bool :=
  TaskProgressEvent x &&
  (if field x "eventType" is VString s then String.eqb s ERROR else false) &&
  is_object (field x "metadata") &&
  is_string (field (field x "metadata") "error").

Definition HeartbeatEvent (x : value) : bool :=
  is_object x && is_Date (field x "timestamp").

(** A populated [metadata.error], as the interface [TaskErrorEvent] has
    it: the payload's [metadata] has an [error] that is a string. *)
Definition populated_error (x : value) : bool :=
  is_string (field (field x "metadata") "error").

(** The fields of a payload that the progress guard looks at, [eventType]
    apart. *)
Definition tested_strings (x : value) : bool :=
  is_object x &&
  is_string (field x "taskId") && is_string (field x "repoId") &&
  is_string (field x "filePath") && is_string (field x "repoName") &&
  is_string (field x "message").

(** The five payload shapes, each with its interface and its guard. *)
Inductive Shape : Type :=
| ProgressShape
| StartedShape
| CompletedShape
| ErrorShape
| HeartbeatShape.

Definition well_formed (shape : Shape) : value -> bool :=
  match shape with
  | ProgressShape => TaskProgressEvent
  | StartedShape => TaskStartedEvent
  | CompletedShape => TaskCompletedEvent
  | ErrorShape => TaskErrorEvent
  | HeartbeatShape => HeartbeatEvent
  end.

Definition guard (shape : Shape) : value -> outcome value :=
  match shape with
  | ProgressShape => isTaskProgressEvent
  | StartedShape => isTaskStartedEvent
  | CompletedShape => isTaskCompletedEvent
  | ErrorShape => isTaskErrorEvent
  | HeartbeatShape => isHeartbeatEvent
  end.

(** *** The provider as an event loop *)

(** What can happen to a mounted provider: its event source opens, its
    event source fails, its reconnection timer fires, an event of a known
    kind arrives, a component subscribes or unsubscribes. *)
Inductive Input : Type :=
| Opened
| Failed
| TimerFired
| Received (eventType : SSEEventType) (text : string)
| Subscribed (eventType : SSEEventType) (listener : EventListener)
| Unsubscribed (eventType : SSEEventType) (listener : EventListener).

Definition handle (env : Env) (sseUrl : string) (input : Input)
    : M Hub unit :=
  match input with
  | Opened => onopen
  | Failed => onerror
  | TimerFired => connect env sseUrl
  | Received eventType text => onmessage env eventType text
  | Subscribed eventType listener => addEventListener eventType listener
  | Unsubscribed eventType listener => removeEventListener eventType listener
  end.

Fixpoint run (env : Env) (sseUrl : string) (inputs : list Input) (h : Hub)
    : Hub :=
  match inputs with
  | [] => h
  | input :: inputs' =>
    run env sseUrl inputs' (after (handle env sseUrl input) h)
  end.

(** The failures since the last open, [start] being the count on entry. *)
Definition failures_since_open (inputs : list Input) (start : nat) : nat :=
  fold_left (fun n input =>
               match input with
               | Opened => 0%nat
               | Failed => S n
               | _ => n
               end) inputs start.

(** *** What an observer compares *)

(** Everything of the provider but the console and the listener calls. *)
Definition apart_from_calls (h : Hub) :=
  (isConnected h, lastEvent h, connectionError h, eventSourceRef h,
   listenersRef h, reconnectTimeoutRef h, reconnectAttemptsRef h,
   scheduled h, cleared h, closed h, opened h).

(** The connection as the provider holds it: connected or not, the last
    connection error, the attempt counter, the event source, the pending
    timer and the delays scheduled so far. *)
Definition connectionState (h : Hub) :=
  (isConnected h, connectionError h, reconnectAttemptsRef h,
   eventSourceRef h, reconnectTimeoutRef h, scheduled h).

(** The callback [notifyListeners] hands to [forEach]. *)
Definition guarded (env : Env) (event : SSEEvent) (listener : EventListener)
    : M Hub unit :=
  try_catch (invoke env listener event)
    (fun error =>
       console_log ("Error in event listener for " +:+
                    eventName (type event) +:+ ": " +:+ error)).

(** *** What the properties of the provider are stated with *)

(** Every set of the registry is without duplicates and is not empty. *)
Definition registry_ok (h : Hub) : Prop :=
  forall eventType listeners,
    listenersRef h !! eventType = Some listeners ->
    NoDup listeners /\ listeners <> [].

(** The event source the provider holds is one it opened, and every other
    one it opened is closed. *)
Definition sources_ok (h : Hub) : Prop :=
  (forall id, eventSourceRef h = Some id -> (id < opened h)%nat) /\
  (forall id, (id < opened h)%nat ->
     eventSourceRef h = Some id \/ In id (closed h)).

(** While failures are being counted the provider is not connected and
    holds a connection error. *)
Definition counting_ok (h : Hub) : Prop :=
  reconnectAttemptsRef h <> 0%nat ->
  isConnected h = false /\ is_Some (connectionError h).

(** Everything of the provider that handling an event leaves alone. *)
Definition frame (h : Hub) :=
  (isConnected h, connectionError h, eventSourceRef h, listenersRef h,
   reconnectTimeoutRef h, reconnectAttemptsRef h, scheduled h, cleared h,
   closed h, opened h).

(** The event that [lastEvent] holds after a run of incoming events: the
    last one whose text parsed, or [start] when none did. *)
Fixpoint latest (parse : string -> outcome value)
    (events : list (SSEEventType * string)) (start : option SSEEvent)
    : option SSEEvent :=
  match events with
  | [] => start
  | (eventType, text) :: events' =>
    latest parse events'
      match parse text with
      | Returns data => Some {| type := eventType; data := data |}
      | Throws _ => start
      end
  end.

(** The calls of [calls] made to [listener]. *)
Definition calls_to (listener : EventListener)
    (calls : list (EventListener * SSEEvent))
    : list (EventListener * SSEEvent) :=
  List.filter (fun call => Nat.eqb (fst call) listener) calls.

End SSE.

(** ** Concrete collaborators and tables, for running the definitions *)

Module Scenario.
Import Tasks.

(** Every collaborator succeeds; [path.join] is stood in for by joining
    with a slash. *)
Definition happy : World :=
  {| getRepoNameFromUrl := fun _ => ok "widgets";
     path_join := fun a b => a +:+ "/" +:+ b;
     randomUUID := "0001";
     fs_cp := fun _ _ => Returns tt;
     execAsync := fun _ => Returns tt;
     fs_readFile := fun _ => Returns "contents";
     generateSuggestions := fun _ _ => Returns (Some "revised");
     fs_writeFile := fun _ _ => Returns tt;
     submitPR := fun _ _ _ => Returns (ok tt) |}.

(** The canonical workspace is missing: [fs.cp] rejects. *)
Definition cp_fails : World :=
  {| getRepoNameFromUrl := getRepoNameFromUrl happy;
     path_join := path_join happy;
     randomUUID := randomUUID happy;
     fs_cp := fun _ _ => Throws "ENOENT: no such file or directory";
     execAsync := execAsync happy;
     fs_readFile := fs_readFile happy;
     generateSuggestions := generateSuggestions happy;
     fs_writeFile := fs_writeFile happy;
     submitPR := submitPR happy |}.

(** The AI adapter answers with nothing. *)
Definition no_response : World :=
  {| getRepoNameFromUrl := getRepoNameFromUrl happy;
     path_join := path_join happy;
     randomUUID := randomUUID happy;
     fs_cp := fs_cp happy;
     execAsync := execAsync happy;
     fs_readFile := fs_readFile happy;
     generateSuggestions := fun _ _ => Returns None;
     fs_writeFile := fs_writeFile happy;
     submitPR := submitPR happy |}.

Definition two_repos : list Repo :=
  [ {| repo_id := 1; url := "https://github.com/acme/widgets" |};
    {| repo_id := 2; url := "https://github.com/acme/gadgets" |} ].

Definition server_of (rows : list RepoFile) : Server :=
  {| files := rows; repos := two_repos; history := []; effects := [];
     logs := [] |}.

(** One queued file. *)
Definition one_queued : list RepoFile :=
  [ {| fileId := 1; repoId := 1; path := "src/foo.ts"; status := Queued |} ].

(** A queued file whose name has [.ts] before its extension. *)
Definition tsv_queued : list RepoFile :=
  [ {| fileId := 1; repoId := 1; path := "src/data.tsv.ts";
       status := Queued |} ].

(** Two repositories that each have a [src/index.ts], both queued. *)
Definition same_path_queued : list RepoFile :=
  [ {| fileId := 1; repoId := 1; path := "src/index.ts"; status := Queued |};
    {| fileId := 2; repoId := 2; path := "src/index.ts"; status := Queued |} ].

(** Two repositories that each have a [src/index.ts]: one queued, the
    other already processed. *)
Definition same_path_processed : list RepoFile :=
  [ {| fileId := 1; repoId := 1; path := "src/index.ts"; status := Queued |};
    {| fileId := 2; repoId := 2; path := "src/index.ts";
       status := Processed |} ].

(** A page whose [JSON.parse] accepts one text, and whose listener 1
    throws on every event. *)
Definition page : SSE.Env :=
  {| SSE.JSON_parse := fun text =>
       if String.eqb text "{}" then Returns (SSE.VObject [])
       else Throws "SyntaxError: Unexpected end of JSON input";
     SSE.listener_call := fun listener _ =>
       if Nat.eqb listener 1 then Throws "boom" else Returns tt;
     SSE.new_EventSource := fun _ => Returns tt |}.

(** Listeners 0, 1 and 2 subscribed to progress events, listener 3 to
    heartbeats, on a connected provider. *)
Definition subscribed : SSE.Hub :=
  SSE.after
    (SSE.connect page "/events/sse";; SSE.onopen;;
     SSE.addEventListener SSE.task_progress 0;;
     SSE.addEventListener SSE.task_progress 1;;
     SSE.addEventListener SSE.task_progress 2;;
     SSE.addEventListener SSE.heartbeat 3)
    SSE.initialHub.

Definition error_payload : SSE.value :=
  SSE.VObject
    [ ("taskId", SSE.VString "7"); ("repoId", SSE.VString "1");
      ("filePath", SSE.VString "src/foo.ts");
      ("repoName", SSE.VString "widgets");
      ("eventType", SSE.VString "error");
      ("message", SSE.VString "generation failed");
      ("timestamp", SSE.VString "2025-01-01T00:00:00.000Z");
      ("metadata", SSE.VObject [("error", SSE.VString "no response")]) ].

(** A payload with the 'complete' sentinel and no timestamp. *)
Definition complete_without_timestamp : SSE.value :=
  SSE.VObject
    [ ("taskId", SSE.VString "7"); ("repoId", SSE.VString "1");
      ("filePath", SSE.VString "src/foo.ts");
      ("repoName", SSE.VString "widgets");
      ("eventType", SSE.VString "complete");
      ("message", SSE.VString "done") ].

(** A payload with the 'error' sentinel whose [metadata.error] is
    [null]. *)
Definition error_with_null : SSE.value :=
  SSE.VObject
    [ ("taskId", SSE.VString "7"); ("repoId", SSE.VString "1");
      ("filePath", SSE.VString "src/foo.ts");
      ("repoName", SSE.VString "widgets");
      ("eventType", SSE.VString "error");
      ("message", SSE.VString "generation failed");
      ("timestamp", SSE.VString "2025-01-01T00:00:00.000Z");
      ("metadata", SSE.VObject [("error", SSE.VNull)]) ].

Definition heartbeat_payload : SSE.value :=
  SSE.VObject [("timestamp", SSE.VString "2025-01-01T00:00:00.000Z")].

(** The hosting provider refuses the pull request. *)
Definition pr_refused : World :=
  {| getRepoNameFromUrl := getRepoNameFromUrl happy;
     path_join := path_join happy;
     randomUUID := randomUUID happy;
     fs_cp := fs_cp happy;
     execAsync := execAsync happy;
     fs_readFile := fs_readFile happy;
     generateSuggestions := generateSuggestions happy;
     fs_writeFile := fs_writeFile happy;
     submitPR := fun _ _ _ => Returns (err "Validation Failed") |}.

(** A queued file of a repository that is not in the table. *)
Definition orphan_queued : list RepoFile :=
  [ {| fileId := 1; repoId := 9; path := "src/foo.ts"; status := Queued |} ].

(** A page on which the event source cannot be constructed. *)
Definition bad_url_page : SSE.Env :=
  {| SSE.JSON_parse := SSE.JSON_parse page;
     SSE.listener_call := SSE.listener_call page;
     SSE.new_EventSource := fun _ =>
       Throws "SyntaxError: Failed to construct 'EventSource'" |}.

End Scenario.

(** * Properties of the task poller *)

Module TasksFacts.
Import Tasks Scenario.

Lemma append_cancel_l (s a b : string) : s +:+ a = s +:+ b -> a = b.
Proof.
  induction s as [|c s IH]; simpl; intros H; [exact H|].
  injection H as H. auto.
Qed.

(** The branch is created by one command and the commit is made by
    another, whatever the workspace and the identifier are. *)
Lemma checkout_is_not_commit (newPath filePath uuid : string) :
  checkoutCommand newPath uuid <> commitCommand newPath filePath uuid.
Proof.
  unfold checkoutCommand, commitCommand. intros H.
  apply (append_cancel_l "cd ") in H.
  apply append_cancel_l in H. simpl in H. discriminate H.
Qed.

(** The pipeline reads the tables and never writes them. *)
Lemma pipeline_keeps_tables (w : World) (file : RepoFile) (s : Server) :
  let s' := snd (handleGenerateImprovements w file s) in
  files s' = files s /\ repos s' = repos s /\ history s' = history s.
Proof.
  unfold handleGenerateImprovements, bind, call, log, findFirstRepo, gets,
    modify, await, ret; simpl.
  destruct (find _ (repos s)) as [repo|]; simpl; [|done].
  destruct (getRepoNameFromUrl w (url repo)) as [repoName|]; simpl; [|done].
  destruct (fs_cp w _ _); simpl; [|done].
  destruct (execAsync w _); simpl; [|done].
  destruct (fs_readFile w _); simpl; [|done].
  destruct (fs_readFile w _); simpl; [|done].
  destruct (generateSuggestions w _ _) as [response|]; simpl; [|done].
  destruct (falsy response); simpl; [done|].
  destruct (fs_writeFile w _ _); simpl; [|done].
  destruct (execAsync w _); simpl; [|done].
  destruct (submitPR w _ _ _) as [[]|]; simpl; done.
Qed.


Ltac trace_simpl :=
  unfold new_effects; simpl;
  rewrite <- ?app_assoc; rewrite ?drop_app_length, ?drop_all; simpl.

Lemma pipeline_generate_falsy (w : World) (file : RepoFile) (s : Server)
    (tests source : string) (response : option string) :
  let run := handleGenerateImprovements w file s in
  In (EvGenerate tests source (Returns response)) (new_effects s (snd run)) ->
  falsy response = true ->
  fst run = Returns (err "no response returned") /\
  exists existingPath newPath,
    new_effects s (snd run) =
      [ EvCp existingPath newPath;
        EvExec (checkoutCommand newPath (randomUUID w));
        EvReadFile (path_join w newPath (testPath (path file)));
        EvReadFile (path_join w newPath (path file));
        EvGenerate tests source (Returns response) ].
Proof.
  unfold handleGenerateImprovements, bind, call, log, findFirstRepo, gets,
    modify, await, ret; simpl.
  destruct (find _ (repos s)) as [repo|]; simpl;
    [|trace_simpl; intros []].
  destruct (getRepoNameFromUrl w (url repo)) as [repoName|]; simpl;
    [|trace_simpl; intros []].
  destruct (fs_cp w _ _); simpl;
    [|trace_simpl; intuition discriminate].
  destruct (execAsync w _); simpl;
    [|trace_simpl; intuition discriminate].
  destruct (fs_readFile w _) as [testFileContents|]; simpl;
    [|trace_simpl; intuition discriminate].
  destruct (fs_readFile w _) as [fileContents|]; simpl;
    [|trace_simpl; intuition discriminate].
  destruct (generateSuggestions w _ _) as [answer|] eqn:Hgen; simpl;
    [|trace_simpl; intuition discriminate].
  destruct (falsy answer) eqn:Hfalsy; simpl.
  - trace_simpl. intros Hin _.
    destruct Hin as [H|[H|[H|[H|[H|[]]]]]]; try discriminate H.
    injection H as <- <- <-. split; [reflexivity|]. eauto.
  - intros Hin Hresp. exfalso.
    assert (Hsome : In (EvGenerate tests source (Returns response))
              [EvGenerate testFileContents fileContents (Returns answer)]).
    { revert Hin.
      destruct (fs_writeFile w _ _); simpl;
        [|trace_simpl; intuition discriminate].
      destruct (execAsync w _); simpl;
        [|trace_simpl; intuition discriminate].
      destruct (submitPR w _ _ _) as [[]|]; simpl;
        trace_simpl; intuition discriminate. }
    destruct Hsome as [H|[]]. injection H as <- <- <-. congruence.
Qed.


(** A firing that finds a queued record, by what the pipeline does. *)
Lemma cron_selected (w : World) (s : Server) (file : RepoFile) :
  fst (findFirstQueued s) = Returns (Some file) ->
  handleGenerateImprovementsCron w s =
    match handleGenerateImprovements w file (marked file s) with
    | (Returns (ok _), s1) => updateStatus (path file) Processed s1
    | (Returns (err e), s1) =>
      (log ("Error generating improvements " +:+ e);;
       updateStatus (path file) Error) s1
    | (Throws reason, s1) => (Throws reason, s1)
    end.
Proof.
  unfold findFirstQueued, gets; simpl. intros [= Hfind].
  unfold handleGenerateImprovementsCron, bind at 1.
  unfold findFirstQueued, gets. rewrite Hfind.
  unfold bind at 1. unfold marked.
  destruct (updateStatus (path file) Processing s) as [[[]|] s0] eqn:Hmark;
    [|discriminate Hmark].
  simpl. unfold bind at 1.
  destruct (handleGenerateImprovements w file s0) as [[[[]|e]|reason] s1];
    reflexivity.
Qed.

Lemma update_where_path_lookup (p : string) (st : Status)
    (rows : list RepoFile) (i : nat) (f : RepoFile) :
  rows !! i = Some f -> path f = p ->
  update_where_path p st rows !! i = Some (set_status st f).
Proof.
  intros Hi Hp. unfold update_where_path.
  rewrite list_lookup_fmap, Hi. simpl.
  by rewrite <- Hp, String.eqb_refl.
Qed.

Lemma findFirstQueued_lookup (s : Server) (file : RepoFile) :
  fst (findFirstQueued s) = Returns (Some file) ->
  status file = Queued /\ exists i, files s !! i = Some file.
Proof.
  unfold findFirstQueued, gets; simpl. intros [= Hfind].
  apply find_some in Hfind as [Hin Hq].
  apply bool_decide_eq_true in Hq. split; [exact Hq|].
  apply list_elem_of_In, list_elem_of_lookup in Hin. exact Hin.
Qed.

(** C5. Whenever the AI adapter returns empty or falsy content, the
    pipeline aborts at that stage with an error result: the test file is
    not written, no stage/commit/push is attempted, no pull request is
    submitted, and the record's final status is 'error'. *)
Theorem falsy_response_aborts (w : World) (s : Server) (file : RepoFile)
    (tests source : string) (response : option string) :
  fst (findFirstQueued s) = Returns (Some file) ->
  In (EvGenerate tests source (Returns response))
     (new_effects s (tick w s)) ->
  falsy response = true ->
  fst (handleGenerateImprovements w file (marked file s))
    = Returns (err "no response returned") /\
  (exists existingPath newPath,
     new_effects s (tick w s) =
       [ EvCp existingPath newPath;
         EvExec (checkoutCommand newPath (randomUUID w));
         EvReadFile (path_join w newPath (testPath (path file)));
         EvReadFile (path_join w newPath (path file));
         EvGenerate tests source (Returns response) ] /\
     ~ In (EvExec (commitCommand newPath (path file) (randomUUID w)))
          (new_effects s (tick w s))) /\
  (forall e, In e (new_effects s (tick w s)) ->
     match e with
     | EvWriteFile _ _ | EvSubmitPR _ _ _ => False
     | _ => True
     end) /\
  (exists i, files s !! i = Some file) /\
  (forall i, files s !! i = Some file ->
     status <$> files (tick w s) !! i = Some Error).
Proof.
  intros Hsel Hin Hfalsy.
  pose proof (pipeline_generate_falsy w file (marked file s) tests source
                response) as Hrun.
  pose proof (pipeline_keeps_tables w file (marked file s)) as Hkeep.
  unfold tick in *. rewrite (cron_selected w s file Hsel) in *.
  destruct (handleGenerateImprovements w file (marked file s))
    as [o s1] eqn:Hpipe.
  simpl in Hrun, Hkeep. destruct Hkeep as (Hfiles & _ & _).
  assert (Htrace : forall s2, effects s2 = effects s1 ->
            new_effects s s2 = new_effects (marked file s) s1).
  { intros s2 E. unfold new_effects. by rewrite E. }
  assert (Hsame : new_effects s
            (snd match o with
                 | Returns (ok _) => updateStatus (path file) Processed s1
                 | Returns (err e) =>
                   (log ("Error generating improvements " +:+ e);;
                    updateStatus (path file) Error) s1
                 | Throws reason => (Throws reason, s1)
                 end) = new_effects (marked file s) s1).
  { apply Htrace. destruct o as [[[]|e]|reason]; reflexivity. }
  rewrite Hsame in *. clear Hsame Htrace.
  destruct (Hrun Hin Hfalsy) as (Ho & existingPath & newPath & Heff).
  subst o. split; [reflexivity|]. split; [|split; [|split]].
  - exists existingPath, newPath. split; [exact Heff|].
    rewrite Heff. simpl.
    intros [H|[H|[H|[H|[H|[]]]]]]; try discriminate H.
    apply (checkout_is_not_commit newPath (path file) (randomUUID w)).
    congruence.
  - rewrite Heff. simpl.
    intros e [<-|[<-|[<-|[<-|[<-|[]]]]]]; exact I.
  - by apply findFirstQueued_lookup in Hsel as [_ ?].
  - intros i Hi. simpl. rewrite Hfiles. unfold marked; simpl.
    rewrite (update_where_path_lookup _ Error _ i
               (set_status Processing file)); [reflexivity| |reflexivity].
    by apply update_where_path_lookup.
Qed.

Lemma falsy_response_aborts_witness :
  In (EvGenerate "contents" "contents" (Returns None))
     (new_effects (server_of one_queued)
        (tick no_response (server_of one_queued))) /\
  status <$> files (tick no_response (server_of one_queued)) !! 0%nat
    = Some Error.
Proof.
  split; [vm_compute; tauto|].
  refine (proj2 (proj2 (proj2 (proj2
    (falsy_response_aborts no_response (server_of one_queued)
       {| fileId := 1; repoId := 1; path := "src/foo.ts"; status := Queued |}
       "contents" "contents" None _ _ _)))) 0%nat _).
  - reflexivity.
  - vm_compute. tauto.
  - reflexivity.
  - reflexivity.
Defined.

(** What a firing leaves in the selected record: the pipeline's verdict
    when the pipeline returns one, and 'processing' when it rejects. *)
Lemma selected_status_after_tick (w : World) (s : Server) (file : RepoFile)
    (i : nat) :
  fst (findFirstQueued s) = Returns (Some file) ->
  files s !! i = Some file ->
  status <$> files (tick w s) !! i =
    Some match fst (handleGenerateImprovements w file (marked file s)) with
         | Returns (ok _) => Processed
         | Returns (err _) => Error
         | Throws _ => Processing
         end.
Proof.
  intros Hsel Hi.
  pose proof (pipeline_keeps_tables w file (marked file s)) as (Hfiles & _).
  unfold tick. rewrite (cron_selected w s file Hsel).
  destruct (handleGenerateImprovements w file (marked file s))
    as [[[[]|e]|reason] s1]; simpl in *; rewrite Hfiles; unfold marked; simpl.
  - rewrite (update_where_path_lookup _ Processed _ i
               (set_status Processing file)); [reflexivity| |reflexivity].
    by apply update_where_path_lookup.
  - rewrite (update_where_path_lookup _ Error _ i
               (set_status Processing file)); [reflexivity| |reflexivity].
    by apply update_where_path_lookup.
  - by rewrite (update_where_path_lookup _ Processing _ i file).
Qed.

(** C1 (the source departs from it). The claim: after a tick that selects
    a queued record, the record is 'processed' when the pipeline succeeds
    and 'error' when it fails for any reason, I/O failures included.  In the
    source a rejected [fs.cp] is not caught: the rejection leaves
    [handleGenerateImprovementsCron] and the record stays 'processing'. *)
Theorem rejected_copy_leaves_processing :
  fst (handleGenerateImprovementsCron cp_fails (server_of one_queued))
    = Throws "ENOENT: no such file or directory" /\
  map status (files (tick cp_fails (server_of one_queued))) = [Processing].
Proof. split; reflexivity. Qed.

(** When the first [.ts] of a path is its extension, the test path is the
    path with that extension swapped for [.test.ts]. *)
Lemma testPath_extension (stem : string) :
  String.index 0 ".ts" (stem +:+ ".ts") = Some (String.length stem) ->
  testPath (stem +:+ ".ts") = stem +:+ ".test.ts".
Proof.
  unfold testPath. induction stem as [|c stem IH]; [reflexivity|].
  intros H. change (String c stem +:+ ".ts") with (String c (stem +:+ ".ts")) in *.
  cbn [String.index] in H. cbn [replace].
  destruct (String.prefix ".ts" (String c (stem +:+ ".ts"))); [discriminate H|].
  destruct (String.index 0 ".ts" (stem +:+ ".ts")) as [n|] eqn:Hn;
    [|discriminate H].
  injection H as ->. by rewrite IH.
Qed.

(** A path without [.ts] is its own test path: the source file is what
    the pipeline then reads as the test file and overwrites. *)
Example testPath_of_js_module : testPath "src/foo.js" = "src/foo.js".
Proof. reflexivity. Qed.

(** C2 (the source departs from it). The claim: the test file read and
    overwritten is the source path with its [.ts] extension replaced by
    [.test.ts], nothing else altered.  In the source [replace] rewrites the
    first [.ts] of the path, which for [src/data.tsv.ts] is not the
    extension: the pipeline reads and overwrites [src/data.test.tsv.ts]. *)
Theorem test_path_of_tsv_module :
  endsWith "src/data.tsv.ts" ".ts" = true /\
  testPath "src/data.tsv.ts" = "src/data.test.tsv.ts" /\
  testPath "src/data.tsv.ts" <> "src/data.tsv.test.ts" /\
  List.filter (fun e => match e with
                        | EvReadFile _ | EvWriteFile _ _ => true
                        | _ => false
                        end)
    (effects (tick happy (server_of tsv_queued))) =
    [ EvReadFile "./repos/widgets-0001/src/data.test.tsv.ts";
      EvReadFile "./repos/widgets-0001/src/data.tsv.ts";
      EvWriteFile "./repos/widgets-0001/src/data.test.tsv.ts" "revised" ].
Proof. repeat split; try reflexivity. discriminate. Qed.

(** C3 (the source departs from it). The claim: a tick with a queued
    record moves exactly one record to 'processing'.  In the source the
    write is keyed by path, not by record: with [src/index.ts] queued in
    two repositories, the first write of the tick moves both records. *)
Theorem one_tick_marks_two_records :
  last (history (tick happy (server_of same_path_queued))) =
    Some (map (set_status Processing) same_path_queued) /\
  status_history same_path_queued 0 (tick happy (server_of same_path_queued))
    = [Some Queued; Some Processing; Some Processed] /\
  status_history same_path_queued 1 (tick happy (server_of same_path_queued))
    = [Some Queued; Some Processing; Some Processed].
Proof. repeat split; reflexivity. Qed.

(** C4 (the source departs from it). The claim: a record's status only
    moves forward along queued, processing, processed or error.  In the
    source the write is keyed by path: a record already 'processed' whose
    path is that of the selected record goes back to 'processing'. *)
Theorem processed_record_goes_back :
  status_history same_path_processed 1
    (tick happy (server_of same_path_processed))
    = [Some Processed; Some Processing; Some Processed] /\
  forward Processed Processing = false.
Proof. split; reflexivity. Qed.



Lemma tick_none_queued (w : World) (s : Server) :
  fst (findFirstQueued s) = Returns None ->
  files (tick w s) = files s /\ history (tick w s) = history s /\
  effects (tick w s) = effects s.
Proof.
  unfold findFirstQueued, gets; simpl. intros [= Hfind].
  unfold tick, handleGenerateImprovementsCron, bind, findFirstQueued, gets.
  rewrite Hfind. done.
Qed.

Lemma update_where_path_paths (p : string) (st : Status)
    (rows : list RepoFile) :
  map path (update_where_path p st rows) = map path rows.
Proof.
  unfold update_where_path. rewrite map_map. apply map_ext.
  intros f. by destruct (String.eqb (path f) p).
Qed.

(** With one record per path, the write keyed by path is a write to the
    record it was issued for. *)
Lemma update_where_path_unique (rows : list RepoFile) (i : nat)
    (f : RepoFile) (st : Status) :
  NoDup (map path rows) -> rows !! i = Some f ->
  update_where_path (path f) st rows = <[i := set_status st f]> rows.
Proof.
  intros Hnd Hi. apply list_eq. intros j.
  unfold update_where_path. rewrite list_lookup_fmap.
  destruct (decide (i = j)) as [<-|Hne].
  - rewrite list_lookup_insert_eq by (by eapply lookup_lt_Some).
    rewrite Hi. simpl. by rewrite String.eqb_refl.
  - rewrite list_lookup_insert_ne by done.
    destruct (rows !! j) as [g|] eqn:Hj; [|done]. simpl.
    destruct (String.eqb_spec (path g) (path f)) as [Heq|]; [|done].
    exfalso. apply Hne.
    apply (NoDup_lookup (map path rows) i j (path f)); [done| |].
    + change (map path rows) with (path <$> rows).
      by rewrite list_lookup_fmap, Hi.
    + change (map path rows) with (path <$> rows).
      by rewrite list_lookup_fmap, Hj, <- Heq.
Qed.

(** With one record per path, a firing that finds a queued record moves
    that record, and no other, to 'processing'. *)
Lemma unique_paths_mark_one (s : Server) (file : RepoFile) :
  NoDup (map path (files s)) ->
  fst (findFirstQueued s) = Returns (Some file) ->
  exists i, files s !! i = Some file /\
    files (marked file s) = <[i := set_status Processing file]> (files s).
Proof.
  intros Hnd Hsel.
  destruct (findFirstQueued_lookup s file Hsel) as (_ & i & Hi).
  exists i. split; [exact Hi|].
  unfold marked; simpl. by apply update_where_path_unique.
Qed.


Lemma forward_only_cons (i : nat) (initial table : list RepoFile)
    (tables : list (list RepoFile)) :
  forward_only i ((table :: tables) ++ [initial]) <->
  step_ok (status <$> hd initial tables !! i) (status <$> table !! i) /\
  forward_only i (tables ++ [initial]).
Proof. by destruct tables. Qed.

Lemma update_where_path_status (p : string) (st : Status)
    (rows : list RepoFile) (i : nat) :
  status <$> update_where_path p st rows !! i =
  (fun g => if String.eqb (path g) p then st else status g) <$> rows !! i.
Proof.
  unfold update_where_path. rewrite list_lookup_fmap.
  destruct (rows !! i) as [g|]; [|done]. simpl.
  by destruct (String.eqb (path g) p).
Qed.

(** The first write of a firing, seen from position [i]. *)
Lemma mark_step (rows : list RepoFile) (file : RepoFile) (i : nat) :
  NoDup (map path rows) -> In file rows -> status file = Queued ->
  step_ok (status <$> rows !! i)
          (status <$> update_where_path (path file) Processing rows !! i).
Proof.
  intros Hnd Hin Hq. rewrite update_where_path_status.
  destruct (rows !! i) as [g|] eqn:Hi; [|by left]. simpl.
  destruct (String.eqb_spec (path g) (path file)) as [Heq|]; [|by left].
  right. exists Queued, Processing. split; [|done].
  apply list_elem_of_In, list_elem_of_lookup in Hin as [j Hj].
  assert (i = j) as <-.
  { apply (NoDup_lookup (map path rows) i j (path file)); [done| |];
      change (map path rows) with (path <$> rows);
      rewrite list_lookup_fmap.
    - by rewrite Hi, <- Heq.
    - by rewrite Hj. }
  congruence.
Qed.

(** The second write of a firing, seen from position [i]. *)
Lemma settle_step (rows : list RepoFile) (p : string) (st : Status)
    (i : nat) :
  forward Processing st = true ->
  step_ok (status <$> update_where_path p Processing rows !! i)
          (status <$> update_where_path p st
                        (update_where_path p Processing rows) !! i).
Proof.
  intros Hfw. rewrite !update_where_path_status.
  unfold update_where_path. rewrite list_lookup_fmap.
  destruct (rows !! i) as [g|]; [|by left]. simpl.
  destruct (String.eqb (path g) p) eqn:E; simpl; rewrite E; [|by left].
  right. by exists Processing, st.
Qed.

Lemma tick_inv (w : World) (initial : list RepoFile) (i : nat) (s : Server) :
  NoDup (map path initial) -> inv initial i s -> inv initial i (tick w s).
Proof.
  intros Hnd (Hhd & Hpaths & Hfw).
  destruct (fst (findFirstQueued s)) as [[file|]|reason] eqn:Hsel.
  - destruct (findFirstQueued_lookup s file Hsel) as (Hq & j & Hj).
    pose proof (pipeline_keeps_tables w file (marked file s))
      as (Hfiles & _ & Hhist).
    unfold tick. rewrite (cron_selected w s file Hsel).
    assert (Hone : step_ok (status <$> hd initial (history s) !! i)
              (status <$> update_where_path (path file) Processing
                            (files s) !! i)).
    { rewrite Hhd. apply mark_step; [by rewrite Hpaths| |done].
      apply list_elem_of_In, list_elem_of_lookup. eauto. }
    destruct (handleGenerateImprovements w file (marked file s))
      as [[[[]|e]|reason] s1]; simpl in *;
      unfold inv; simpl; rewrite ?Hfiles, ?Hhist; unfold marked; simpl;
      rewrite ?update_where_path_paths;
      (split; [reflexivity|]); (split; [exact Hpaths|]).
    + split; [by apply settle_step|]. apply forward_only_cons. done.
    + split; [by apply settle_step|]. apply forward_only_cons. done.
    + apply forward_only_cons. done.
  - destruct (tick_none_queued w s Hsel) as (Hf & Hh & _).
    unfold inv. by rewrite Hf, Hh.
  - discriminate Hsel.
Qed.

Lemma ticks_inv (ws : list World) (initial : list RepoFile) (i : nat)
    (s : Server) :
  NoDup (map path initial) -> inv initial i s -> inv initial i (ticks ws s).
Proof.
  intros Hnd. revert s.
  induction ws as [|w ws IH]; intros s Hinv; simpl; [exact Hinv|].
  apply IH. by apply tick_inv.
Qed.

(** X30. With one record per path, no sequence of firings moves a
    record's status otherwise than forward along queued, processing,
    processed or error. *)
Lemma unique_paths_forward_only (ws : list World) (s : Server) (i : nat) :
  NoDup (map path (files s)) -> history s = [] ->
  forward_only i (history (ticks ws s) ++ [files s]).
Proof.
  intros Hnd Hh.
  apply (ticks_inv ws (files s) i s Hnd).
  unfold inv. rewrite Hh. done.
Qed.
(** ** More on the pipeline and the poller *)

Ltac pipeline_unfold :=
  unfold handleGenerateImprovements, plan_of, plan, bind, call, log,
    findFirstRepo, gets, modify, await, ret; simpl.

Lemma trace_prefix_of_plan (w : World) (file : RepoFile) (s : Server) :
  new_effects s (snd (handleGenerateImprovements w file s))
    `prefix_of` plan_of w s file.
Proof.
  pipeline_unfold.
  destruct (find _ (repos s)) as [repo|]; simpl;
    [|trace_simpl; by exists []].
  destruct (getRepoNameFromUrl w (url repo)) as [repoName|]; simpl;
    [|trace_simpl; by exists []].
  destruct (fs_cp w _ _); simpl; [|trace_simpl; by eexists].
  destruct (execAsync w (checkoutCommand _ _)); simpl;
    [|trace_simpl; by eexists].
  destruct (fs_readFile w _) as [testFileContents|]; simpl;
    [|trace_simpl; by eexists].
  destruct (fs_readFile w _) as [fileContents|]; simpl;
    [|trace_simpl; by eexists].
  destruct (generateSuggestions w _ _) as [response|]; simpl;
    [|trace_simpl; by eexists].
  destruct (falsy response) eqn:Hfalsy; simpl; [trace_simpl; by eexists|].
  destruct response as [text|]; [|discriminate Hfalsy]. simpl.
  destruct (fs_writeFile w _ _); simpl; [|trace_simpl; by eexists].
  destruct (execAsync w (commitCommand _ _ _)); simpl;
    [|trace_simpl; by eexists].
  destruct (submitPR w _ _ _) as [[]|]; simpl; trace_simpl; by exists [].
Qed.

(** A run that returns [ok] has made every call of its plan, and its plan
    is a full one. *)
Lemma pipeline_ok_full (w : World) (file : RepoFile) (s : Server) :
  fst (handleGenerateImprovements w file s) = Returns (ok tt) ->
  new_effects s (snd (handleGenerateImprovements w file s)) = plan_of w s file /\
  length (plan_of w s file) = 8%nat.
Proof.
  pipeline_unfold.
  destruct (find _ (repos s)) as [repo|]; simpl; [|discriminate].
  destruct (getRepoNameFromUrl w (url repo)) as [repoName|]; simpl;
    [|discriminate].
  destruct (fs_cp w _ _); simpl; [|discriminate].
  destruct (execAsync w (checkoutCommand _ _)); simpl; [|discriminate].
  destruct (fs_readFile w _) as [testFileContents|]; simpl; [|discriminate].
  destruct (fs_readFile w _) as [fileContents|]; simpl; [|discriminate].
  destruct (generateSuggestions w _ _) as [response|]; simpl; [|discriminate].
  destruct (falsy response) eqn:Hfalsy; simpl; [discriminate|].
  destruct response as [text|]; [|discriminate Hfalsy]. simpl.
  destruct (fs_writeFile w _ _); simpl; [|discriminate].
  destruct (execAsync w (commitCommand _ _ _)); simpl; [|discriminate].
  destruct (submitPR w _ _ _) as [[]|]; simpl; try discriminate.
  intros _. trace_simpl. done.
Qed.

(** The effects of a firing that selects [file] are those of its run of
    the pipeline. *)
Lemma tick_effects (w : World) (s : Server) (file : RepoFile) :
  fst (findFirstQueued s) = Returns (Some file) ->
  new_effects s (tick w s) =
  new_effects (marked file s)
    (snd (handleGenerateImprovements w file (marked file s))).
Proof.
  intros Hsel. unfold tick. rewrite (cron_selected w s file Hsel).
  destruct (handleGenerateImprovements w file (marked file s))
    as [[[[]|e]|reason] s1]; reflexivity.
Qed.

Lemma plan_of_marked (w : World) (s : Server) (file : RepoFile) :
  plan_of w (marked file s) file = plan_of w s file.
Proof. reflexivity. Qed.

(** X6. A selected record ends a tick 'processed' only when its run made
    every call of the plan: the test file was written, the commit was made
    and pushed, and the pull request was submitted. *)
Theorem processed_means_whole_plan (w : World) (s : Server)
    (file : RepoFile) (i : nat) :
  fst (findFirstQueued s) = Returns (Some file) ->
  files s !! i = Some file ->
  status <$> files (tick w s) !! i = Some Processed ->
  new_effects s (tick w s) = plan_of w s file /\
  length (new_effects s (tick w s)) = 8%nat /\
  exists newPath text,
    In (EvWriteFile (path_join w newPath (testPath (path file))) text)
       (new_effects s (tick w s)) /\
    In (EvExec (commitCommand newPath (path file) (randomUUID w)))
       (new_effects s (tick w s)) /\
    In (EvSubmitPR newPath (path file) (randomUUID w))
       (new_effects s (tick w s)).
Proof.
  intros Hsel Hi Hdone.
  rewrite (selected_status_after_tick w s file i Hsel Hi) in Hdone.
  rewrite (tick_effects w s file Hsel).
  destruct (fst (handleGenerateImprovements w file (marked file s)))
    as [[[]|e]|reason] eqn:Hrun; try discriminate Hdone.
  destruct (pipeline_ok_full w file (marked file s) Hrun) as [Heff Hlen].
  rewrite Heff, plan_of_marked. split; [reflexivity|]. split; [exact Hlen|].
  rewrite plan_of_marked in Hlen. revert Hlen. unfold plan_of.
  destruct (find _ (repos s)) as [repo|]; simpl; [|discriminate].
  destruct (getRepoNameFromUrl w (url repo)) as [repoName|]; simpl;
    [|discriminate].
  intros _. eexists _, _. split; [|split].
  - do 5 right. left. reflexivity.
  - do 6 right. left. reflexivity.
  - do 7 right. left. reflexivity.
Qed.

Lemma processed_means_whole_plan_witness :
  new_effects (server_of one_queued) (tick happy (server_of one_queued)) =
  plan_of happy (server_of one_queued)
    {| fileId := 1; repoId := 1; path := "src/foo.ts"; status := Queued |}.
Proof.
  refine (proj1 (processed_means_whole_plan happy (server_of one_queued)
    {| fileId := 1; repoId := 1; path := "src/foo.ts"; status := Queued |}
    0%nat _ _ _)); reflexivity.
Defined.

Lemma trace_through_first_failure (w : World) (file : RepoFile)
    (s : Server) :
  new_effects s (snd (handleGenerateImprovements w file s))
  = through_first (failed w) (plan_of w s file).
Proof.
  pipeline_unfold.
  destruct (find _ (repos s)) as [repo|]; simpl;
    [|trace_simpl; reflexivity].
  destruct (getRepoNameFromUrl w (url repo)) as [repoName|]; simpl;
    [|trace_simpl; reflexivity].
  destruct (fs_cp w _ _); simpl; [|trace_simpl; reflexivity].
  destruct (execAsync w (checkoutCommand _ _)); simpl;
    [|trace_simpl; reflexivity].
  destruct (fs_readFile w _) as [testFileContents|] eqn:Hread; simpl;
    [|trace_simpl; reflexivity].
  destruct (fs_readFile w (path_join w _ (path file))) as [fileContents|];
    simpl; [|trace_simpl; reflexivity].
  destruct (generateSuggestions w _ _) as [response|]; simpl;
    [|trace_simpl; reflexivity].
  destruct (falsy response) eqn:Hfalsy; simpl; [trace_simpl; reflexivity|].
  destruct response as [text|]; [|discriminate Hfalsy]. simpl.
  destruct (fs_writeFile w _ _); simpl; [|trace_simpl; reflexivity].
  destruct (execAsync w (commitCommand _ _ _)); simpl;
    [|trace_simpl; reflexivity].
  destruct (submitPR w _ _ _) as [[]|]; simpl; trace_simpl; reflexivity.
Qed.

Lemma through_first_stops (stop : Effect -> bool) (l before after :
    list Effect) (e : Effect) :
  through_first stop l = before ++ e :: after -> stop e = true ->
  after = [].
Proof.
  revert before. induction l as [|x l IH]; intros before H He;
    [by destruct before|].
  simpl in H. destruct before as [|y before]; simpl in H.
  - injection H as <- H. rewrite He in H. by symmetry.
  - injection H as <- H. destruct (stop x); [by destruct before|].
    by apply (IH before).
Qed.

(** X7. The calls a run of the pipeline makes are the first calls of its
    plan, in order: copy, checkout, read the test file, read the source
    file, generate, write, commit and push, submit.  A run stops at the
    call that fails and makes no later one: its calls are those of the plan
    up to the first call that rejects, or that returns a falsy response,
    that call included and none after it; so are the calls of a tick. *)
Theorem pipeline_is_fail_fast (w : World) (file : RepoFile) (s : Server) :
  new_effects s (snd (handleGenerateImprovements w file s))
    `prefix_of` plan_of w s file /\
  (fst (findFirstQueued s) = Returns (Some file) ->
   new_effects s (tick w s) `prefix_of` plan_of w s file) /\
  new_effects s (snd (handleGenerateImprovements w file s))
    = through_first (failed w) (plan_of w s file) /\
  (fst (findFirstQueued s) = Returns (Some file) ->
   new_effects s (tick w s) = through_first (failed w) (plan_of w s file)) /\
  (forall before e after,
     new_effects s (snd (handleGenerateImprovements w file s))
       = before ++ e :: after ->
     failed w e = true -> after = []).
Proof.
  split; [apply trace_prefix_of_plan|]. split; [|split; [|split]].
  - intros Hsel. rewrite (tick_effects w s file Hsel), <- plan_of_marked.
    apply trace_prefix_of_plan.
  - apply trace_through_first_failure.
  - intros Hsel. rewrite (tick_effects w s file Hsel), <- plan_of_marked.
    apply trace_through_first_failure.
  - intros before e after. rewrite trace_through_first_failure.
    apply through_first_stops.
Qed.

(** *** The table across firings *)

Lemma findFirstQueued_returns (s : Server) :
  fst (findFirstQueued s) =
  Returns (find (fun f => bool_decide (status f = Queued)) (files s)).
Proof. reflexivity. Qed.

(** What a firing does to the tables: nothing when no record is queued,
    and otherwise one write of 'processing', followed or not by one of
    'processed' or 'error', all keyed by the path of the selected record. *)
Lemma tick_files (w : World) (s : Server) :
  repos (tick w s) = repos s /\
  match fst (findFirstQueued s) with
  | Returns (Some file) =>
    exists sts,
      (sts = [Processing] \/ sts = [Processing; Processed] \/
       sts = [Processing; Error]) /\
      files (tick w s) = writes (path file) sts (files s)
  | _ => files (tick w s) = files s
  end.
Proof.
  destruct (fst (findFirstQueued s)) as [[file|]|reason] eqn:Hsel.
  - pose proof (pipeline_keeps_tables w file (marked file s))
      as (Hfiles & Hrepos & _).
    unfold tick. rewrite (cron_selected w s file Hsel).
    destruct (handleGenerateImprovements w file (marked file s))
      as [[[[]|e]|reason] s1]; simpl in *; rewrite Hfiles, Hrepos;
      (split; [reflexivity|]).
    + exists [Processing; Processed]. split; [tauto|reflexivity].
    + exists [Processing; Error]. split; [tauto|reflexivity].
    + exists [Processing]. split; [tauto|reflexivity].
  - destruct (tick_none_queued w s Hsel) as (Hf & _ & _).
    split; [|exact Hf].
    unfold tick, handleGenerateImprovementsCron, bind.
    rewrite findFirstQueued_returns in Hsel. injection Hsel as Hsel.
    unfold findFirstQueued, gets. by rewrite Hsel.
  - rewrite findFirstQueued_returns in Hsel. discriminate Hsel.
Qed.

Lemma update_where_path_identity (p : string) (st : Status)
    (rows : list RepoFile) :
  map identity (update_where_path p st rows) = map identity rows.
Proof.
  unfold update_where_path. rewrite map_map. apply map_ext.
  intros f. by destruct (String.eqb (path f) p).
Qed.

Lemma writes_identity (p : string) (sts : list Status)
    (rows : list RepoFile) :
  map identity (writes p sts rows) = map identity rows.
Proof.
  revert rows. induction sts as [|st sts IH]; intros rows; [reflexivity|].
  unfold writes in *. simpl. by rewrite IH, update_where_path_identity.
Qed.

Lemma tick_identity (w : World) (s : Server) :
  map identity (files (tick w s)) = map identity (files s) /\
  repos (tick w s) = repos s.
Proof.
  destruct (tick_files w s) as [Hrepos Hfiles]. split; [|exact Hrepos].
  destruct (fst (findFirstQueued s)) as [[file|]|reason];
    try (by rewrite Hfiles).
  destruct Hfiles as (sts & _ & ->). apply writes_identity.
Qed.

(** X2. No sequence of ticks adds, removes or reorders a record, or
    changes the id, the repository or the path of one: only statuses are
    written.  The repositories table is never written. *)
Theorem ticks_write_statuses_only (ws : list World) (s : Server) :
  map identity (files (ticks ws s)) = map identity (files s) /\
  length (files (ticks ws s)) = length (files s) /\
  repos (ticks ws s) = repos s.
Proof.
  assert (H : map identity (files (ticks ws s)) = map identity (files s) /\
              repos (ticks ws s) = repos s).
  { revert s. induction ws as [|w ws IH]; intros s; simpl; [done|].
    destruct (IH (tick w s)) as [-> ->]. apply tick_identity. }
  destruct H as [Hid Hrepos]. repeat split; try done.
  by rewrite <- (length_map identity), Hid, length_map.
Qed.

Lemma update_where_path_frame (p : string) (st : Status)
    (rows : list RepoFile) (i : nat) (g : RepoFile) :
  rows !! i = Some g -> path g <> p ->
  update_where_path p st rows !! i = Some g.
Proof.
  intros Hi Hp. unfold update_where_path.
  rewrite list_lookup_fmap, Hi. simpl.
  by destruct (String.eqb_spec (path g) p).
Qed.

Lemma writes_frame (p : string) (sts : list Status) (rows : list RepoFile)
    (i : nat) (g : RepoFile) :
  rows !! i = Some g -> path g <> p -> writes p sts rows !! i = Some g.
Proof.
  revert rows. induction sts as [|st sts IH]; intros rows Hi Hp; [exact Hi|].
  unfold writes in *. simpl. apply IH; [|exact Hp].
  by apply update_where_path_frame.
Qed.

(** A firing leaves alone every record whose path is not that of the
    record it selected. *)
Lemma tick_frame (w : World) (s : Server) (i : nat) (g : RepoFile) :
  files s !! i = Some g ->
  (forall file, fst (findFirstQueued s) = Returns (Some file) ->
                path file <> path g) ->
  files (tick w s) !! i = Some g.
Proof.
  intros Hi Hother. destruct (tick_files w s) as [_ Hfiles].
  destruct (fst (findFirstQueued s)) as [[file|]|reason];
    try (by rewrite Hfiles).
  destruct Hfiles as (sts & _ & ->). apply writes_frame; [exact Hi|].
  intros E. by apply (Hother file).
Qed.

(** X3. A tick writes only to records that have the path of the record it
    selected: a record with another path, and every record when nothing is
    queued, is after the tick, and after each write of the tick, what it
    was before. *)
Theorem tick_writes_selected_path_only (w : World) (s : Server) (i : nat)
    (g : RepoFile) :
  files s !! i = Some g ->
  (forall file, fst (findFirstQueued s) = Returns (Some file) ->
                path file <> path g) ->
  files (tick w s) !! i = Some g /\
  (forall rows, In rows (history (tick w s)) ->
     In rows (history s) \/ rows !! i = Some g).
Proof.
  intros Hi Hother. split; [by apply tick_frame|].
  intros rows Hin.
  destruct (fst (findFirstQueued s)) as [[file|]|reason] eqn:Hsel.
  - pose proof (pipeline_keeps_tables w file (marked file s))
      as (Hfiles & _ & Hhist).
    assert (Hp : path g <> path file) by (intros E; by apply (Hother file)).
    assert (H1 : update_where_path (path file) Processing (files s) !! i
                 = Some g) by (by apply update_where_path_frame).
    revert Hin. unfold tick. rewrite (cron_selected w s file Hsel).
    destruct (handleGenerateImprovements w file (marked file s))
      as [[[[]|e]|reason] s1]; simpl in *; rewrite Hhist, ?Hfiles;
      unfold marked; simpl.
    + intros [<-|[<-|Hin]]; [right|right|by left]; [|exact H1].
      by apply update_where_path_frame.
    + intros [<-|[<-|Hin]]; [right|right|by left]; [|exact H1].
      by apply update_where_path_frame.
    + intros [<-|Hin]; [right|by left]. exact H1.
  - left. by destruct (tick_none_queued w s Hsel) as (_ & <- & _).
  - rewrite findFirstQueued_returns in Hsel. discriminate Hsel.
Qed.

Lemma tick_writes_selected_path_only_witness :
  files (tick happy
           (server_of
              [ {| fileId := 1; repoId := 1; path := "src/foo.ts";
                   status := Queued |};
                {| fileId := 2; repoId := 1; path := "src/bar.ts";
                   status := Queued |} ])) !! 1%nat
  = Some {| fileId := 2; repoId := 1; path := "src/bar.ts";
            status := Queued |}.
Proof.
  refine (proj1 (tick_writes_selected_path_only happy _ 1%nat _ _ _)).
  - reflexivity.
  - intros file [= <-]. discriminate.
Defined.

Lemma queued_count_zero (rows : list RepoFile) :
  queued_count rows = 0%nat ->
  find (fun f => bool_decide (status f = Queued)) rows = None.
Proof.
  unfold queued_count. induction rows as [|f rows IH]; [reflexivity|].
  simpl. destruct (bool_decide (status f = Queued)); [discriminate|exact IH].
Qed.

Lemma queued_count_none (rows : list RepoFile) :
  find (fun f => bool_decide (status f = Queued)) rows = None ->
  queued_count rows = 0%nat.
Proof.
  unfold queued_count. induction rows as [|f rows IH]; [reflexivity|].
  simpl. destruct (bool_decide (status f = Queued)); [discriminate|exact IH].
Qed.

(** X1. A tick that finds no queued record writes no table, calls no
    collaborator and does not reject: it logs that nothing is queued, and
    that is all. *)
Theorem idle_tick_only_logs (w : World) (s : Server) :
  queued_count (files s) = 0%nat ->
  handleGenerateImprovementsCron w s =
    log "no files queued for improvements" s /\
  files (tick w s) = files s /\ history (tick w s) = history s /\
  effects (tick w s) = effects s /\
  logs (tick w s) = logs s ++ ["no files queued for improvements"].
Proof.
  intros H0. apply queued_count_zero in H0.
  assert (handleGenerateImprovementsCron w s =
          log "no files queued for improvements" s) as Hrun.
  { unfold handleGenerateImprovementsCron, bind, findFirstQueued, gets.
    by rewrite H0. }
  split; [exact Hrun|]. unfold tick. by rewrite Hrun.
Qed.

Lemma idle_tick_only_logs_witness :
  files (tick happy
           (server_of
              [ {| fileId := 1; repoId := 1; path := "src/foo.ts";
                   status := Error |} ]))
  = [ {| fileId := 1; repoId := 1; path := "src/foo.ts"; status := Error |} ].
Proof.
  refine (proj1 (proj2 (idle_tick_only_logs happy _ _))). reflexivity.
Defined.

(** *** The queue drains *)

Lemma queued_update_le (p : string) (st : Status) (rows : list RepoFile) :
  st <> Queued ->
  (queued_count (update_where_path p st rows) <= queued_count rows)%nat.
Proof.
  intros Hst. unfold queued_count, update_where_path.
  induction rows as [|f rows IH]; simpl; [lia|].
  destruct (String.eqb (path f) p); simpl.
  - rewrite bool_decide_eq_false_2 by done.
    destruct (bool_decide (status f = Queued)); simpl; lia.
  - destruct (bool_decide (status f = Queued)); simpl; lia.
Qed.

Lemma queued_update_lt (file : RepoFile) (st : Status)
    (rows : list RepoFile) :
  st <> Queued -> In file rows -> status file = Queued ->
  (queued_count (update_where_path (path file) st rows)
   < queued_count rows)%nat.
Proof.
  intros Hst Hin Hq. induction rows as [|f rows IH]; [destruct Hin|].
  pose proof (queued_update_le (path file) st rows Hst) as Hle.
  unfold queued_count, update_where_path in *. simpl.
  destruct Hin as [->|Hin].
  - rewrite String.eqb_refl. simpl.
    rewrite bool_decide_eq_false_2 by done.
    rewrite bool_decide_eq_true_2 by done. simpl. lia.
  - specialize (IH Hin).
    destruct (String.eqb (path f) (path file)); simpl.
    + rewrite bool_decide_eq_false_2 by done.
      destruct (bool_decide (status f = Queued)); simpl; lia.
    + destruct (bool_decide (status f = Queued)); simpl; lia.
Qed.

Lemma tick_consumes (w : World) (s : Server) :
  (queued_count (files (tick w s)) <= queued_count (files s) - 1)%nat.
Proof.
  destruct (tick_files w s) as [_ Hfiles].
  destruct (fst (findFirstQueued s)) as [[file|]|reason] eqn:Hsel.
  - destruct Hfiles as (sts & Hsts & ->).
    rewrite findFirstQueued_returns in Hsel. injection Hsel as Hsel.
    apply find_some in Hsel as [Hin Hq]. apply bool_decide_eq_true in Hq.
    pose proof (queued_update_lt file Processing (files s)
                  ltac:(discriminate) Hin Hq) as Hlt.
    destruct Hsts as [->|[->| ->]]; unfold writes; simpl.
    + lia.
    + pose proof (queued_update_le (path file) Processed
        (update_where_path (path file) Processing (files s))
        ltac:(discriminate)). lia.
    + pose proof (queued_update_le (path file) Error
        (update_where_path (path file) Processing (files s))
        ltac:(discriminate)). lia.
  - rewrite Hfiles. rewrite findFirstQueued_returns in Hsel.
    injection Hsel as Hsel.
    rewrite (queued_count_none (files s) Hsel). lia.
  - rewrite findFirstQueued_returns in Hsel. discriminate Hsel.
Qed.

(** X4. Every tick takes at least one record out of the queue when there
    is one, whether its run succeeds, fails or rejects, and never puts one
    back: after as many ticks as there were queued records, none is
    queued. *)
Theorem ticks_drain_queue (ws : list World) (s : Server) :
  (queued_count (files (ticks ws s))
   <= queued_count (files s) - length ws)%nat.
Proof.
  revert s. induction ws as [|w ws IH]; intros s; simpl; [lia|].
  pose proof (IH (tick w s)). pose proof (tick_consumes w s). lia.
Qed.

(** X5. With one record per path, a record that is not queued is never
    written again: a record left 'processing' by a rejected run, like a
    'processed' or 'error' one, keeps its status through every later
    tick. *)
Theorem settled_record_is_never_retried (ws : list World) (s : Server)
    (i : nat) (g : RepoFile) :
  NoDup (map path (files s)) ->
  files s !! i = Some g -> status g <> Queued ->
  files (ticks ws s) !! i = Some g.
Proof.
  revert s. induction ws as [|w ws IH]; intros s Hnd Hi Hst; [exact Hi|].
  simpl. apply IH; [| |exact Hst].
  - destruct (tick_identity w s) as [Hid _].
    assert (map path (files (tick w s)) = map path (files s)) as ->;
      [|exact Hnd].
    assert (Hp : forall rows, map path rows = map snd (map identity rows)).
    { intros rows. rewrite map_map. reflexivity. }
    by rewrite !Hp, Hid.
  - apply tick_frame; [exact Hi|]. intros file Hsel E.
    destruct (findFirstQueued_lookup s file Hsel) as (Hq & j & Hj).
    assert (i = j) as <-.
    { apply (NoDup_lookup (map path (files s)) i j (path g)); [done| |];
        change (map path (files s)) with (path <$> files s);
        rewrite list_lookup_fmap.
      - by rewrite Hi.
      - rewrite Hj. simpl. by rewrite E. }
    congruence.
Qed.

Lemma settled_record_is_never_retried_witness :
  files (ticks [happy; happy; happy]
           (tick cp_fails (server_of one_queued))) !! 0%nat
  = Some {| fileId := 1; repoId := 1; path := "src/foo.ts";
            status := Processing |}.
Proof.
  apply (settled_record_is_never_retried [happy; happy; happy]
           (tick cp_fails (server_of one_queued)) 0%nat).
  - vm_compute. repeat constructor. intros H. inversion H.
  - reflexivity.
  - discriminate.
Defined.

(** *** How a run ends *)

Lemma pipeline_no_plan (w : World) (file : RepoFile) (s : Server) :
  plan_of w s file = [] ->
  (exists e, fst (handleGenerateImprovements w file s) = Returns (err e)) /\
  new_effects s (snd (handleGenerateImprovements w file s)) = [].
Proof.
  pipeline_unfold.
  destruct (find _ (repos s)) as [repo|]; simpl;
    [|trace_simpl; eauto].
  destruct (getRepoNameFromUrl w (url repo)) as [repoName|]; simpl;
    [discriminate|trace_simpl; eauto].
Qed.

(** X8. When the repository of the selected record is not in the table,
    or its name cannot be read off its url, the tick calls no collaborator
    at all and leaves the record 'error'. *)
Theorem unknown_repo_marks_error (w : World) (s : Server) (file : RepoFile)
    (i : nat) :
  fst (findFirstQueued s) = Returns (Some file) ->
  files s !! i = Some file ->
  plan_of w s file = [] ->
  new_effects s (tick w s) = [] /\
  status <$> files (tick w s) !! i = Some Error.
Proof.
  intros Hsel Hi Hplan.
  rewrite (selected_status_after_tick w s file i Hsel Hi).
  rewrite (tick_effects w s file Hsel).
  rewrite <- plan_of_marked in Hplan.
  destruct (pipeline_no_plan w file (marked file s) Hplan) as [[e ->] ->].
  done.
Qed.

Lemma unknown_repo_marks_error_witness :
  new_effects (server_of orphan_queued) (tick happy (server_of orphan_queued))
    = [] /\
  status <$> files (tick happy (server_of orphan_queued)) !! 0%nat
    = Some Error.
Proof.
  apply (unknown_repo_marks_error happy (server_of orphan_queued)
    {| fileId := 1; repoId := 9; path := "src/foo.ts"; status := Queued |}
    0%nat); reflexivity.
Defined.

Lemma pipeline_pr_refused (w : World) (file : RepoFile) (s : Server)
    (newPath filePath uuid reason : string) :
  In (EvSubmitPR newPath filePath uuid)
     (new_effects s (snd (handleGenerateImprovements w file s))) ->
  submitPR w newPath filePath uuid = Returns (err reason) ->
  fst (handleGenerateImprovements w file s)
    = Returns (err ("PR submission failed: " +:+ reason)) /\
  new_effects s (snd (handleGenerateImprovements w file s))
    = plan_of w s file.
Proof.
  pipeline_unfold.
  destruct (find _ (repos s)) as [repo|]; simpl;
    [|trace_simpl; intros []].
  destruct (getRepoNameFromUrl w (url repo)) as [repoName|]; simpl;
    [|trace_simpl; intros []].
  destruct (fs_cp w _ _); simpl; [|trace_simpl; intuition discriminate].
  destruct (execAsync w (checkoutCommand _ _)); simpl;
    [|trace_simpl; intuition discriminate].
  destruct (fs_readFile w _) as [testFileContents|]; simpl;
    [|trace_simpl; intuition discriminate].
  destruct (fs_readFile w _) as [fileContents|]; simpl;
    [|trace_simpl; intuition discriminate].
  destruct (generateSuggestions w _ _) as [response|]; simpl;
    [|trace_simpl; intuition discriminate].
  destruct (falsy response) eqn:Hfalsy; simpl;
    [trace_simpl; intuition discriminate|].
  destruct response as [text|]; [|discriminate Hfalsy]. simpl.
  destruct (fs_writeFile w _ _); simpl;
    [|trace_simpl; intuition discriminate].
  destruct (execAsync w (commitCommand _ _ _)); simpl;
    [|trace_simpl; intuition discriminate].
  destruct (submitPR w _ _ _) as [[[]|e]|] eqn:Hsubmit; simpl; trace_simpl;
    intros [H|[H|[H|[H|[H|[H|[H|[H|[]]]]]]]]] Hrefused;
    try discriminate H; injection H as <- <- <-;
    rewrite Hsubmit in Hrefused; try discriminate Hrefused.
  injection Hrefused as ->. done.
Qed.

(** X9. When the pull request is refused, the run returns the error
    'PR submission failed: ' followed by the submitter's reason and the
    record ends 'error', although every call of the plan was made: the test
    file is written and the commit pushed, and nothing is undone. *)
Theorem refused_pull_request_marks_error (w : World) (s : Server)
    (file : RepoFile) (i : nat) (newPath filePath uuid reason : string) :
  fst (findFirstQueued s) = Returns (Some file) ->
  files s !! i = Some file ->
  In (EvSubmitPR newPath filePath uuid) (new_effects s (tick w s)) ->
  submitPR w newPath filePath uuid = Returns (err reason) ->
  fst (handleGenerateImprovements w file (marked file s))
    = Returns (err ("PR submission failed: " +:+ reason)) /\
  new_effects s (tick w s) = plan_of w s file /\
  length (new_effects s (tick w s)) = 8%nat /\
  status <$> files (tick w s) !! i = Some Error.
Proof.
  intros Hsel Hi Hin Hrefused.
  rewrite (selected_status_after_tick w s file i Hsel Hi).
  rewrite (tick_effects w s file Hsel) in *.
  destruct (pipeline_pr_refused w file (marked file s) _ _ _ _ Hin Hrefused)
    as [Hrun Heff].
  rewrite Hrun, Heff, plan_of_marked. repeat split.
  rewrite Heff, plan_of_marked in Hin. revert Hin. unfold plan_of.
  destruct (find _ (repos s)) as [repo|]; simpl; [|intros []].
  destruct (getRepoNameFromUrl w (url repo)); simpl; [done|intros []].
Qed.

Lemma refused_pull_request_marks_error_witness :
  status <$> files (tick pr_refused (server_of one_queued)) !! 0%nat
    = Some Error /\
  In (EvWriteFile "./repos/widgets-0001/src/foo.test.ts" "revised")
     (new_effects (server_of one_queued)
        (tick pr_refused (server_of one_queued))).
Proof.
  split; [|vm_compute; tauto].
  refine (proj2 (proj2 (proj2
    (refused_pull_request_marks_error pr_refused (server_of one_queued)
       {| fileId := 1; repoId := 1; path := "src/foo.ts"; status := Queued |}
       0%nat "./repos/widgets-0001" "src/foo.ts" "0001" "Validation Failed"
       _ _ _ _)))).
  - reflexivity.
  - reflexivity.
  - vm_compute. tauto.
  - reflexivity.
Defined.

Lemma pipeline_write (w : World) (file : RepoFile) (s : Server)
    (target text : string) :
  In (EvWriteFile target text)
     (new_effects s (snd (handleGenerateImprovements w file s))) ->
  text <> EmptyString /\
  hd_error (List.filter (fun e => if e is EvReadFile _ then true else false)
              (new_effects s (snd (handleGenerateImprovements w file s))))
    = Some (EvReadFile target) /\
  exists testFileContents fileContents,
    fs_readFile w target = Returns testFileContents /\
    generateSuggestions w testFileContents fileContents
      = Returns (Some text).
Proof.
  pipeline_unfold.
  destruct (find _ (repos s)) as [repo|]; simpl;
    [|trace_simpl; intros []].
  destruct (getRepoNameFromUrl w (url repo)) as [repoName|]; simpl;
    [|trace_simpl; intros []].
  destruct (fs_cp w _ _); simpl; [|trace_simpl; intuition discriminate].
  destruct (execAsync w (checkoutCommand _ _)); simpl;
    [|trace_simpl; intuition discriminate].
  destruct (fs_readFile w _) as [testFileContents|] eqn:Hread; simpl;
    [|trace_simpl; intuition discriminate].
  destruct (fs_readFile w (path_join w _ (path file))) as [fileContents|];
    simpl; [|trace_simpl; intuition discriminate].
  destruct (generateSuggestions w _ _) as [response|] eqn:Hgen; simpl;
    [|trace_simpl; intuition discriminate].
  destruct (falsy response) eqn:Hfalsy; simpl;
    [trace_simpl; intuition discriminate|].
  destruct response as [answer|]; [|discriminate Hfalsy]. simpl in *.
  destruct (fs_writeFile w _ _); simpl;
    [destruct (execAsync w (commitCommand _ _ _)); simpl;
       [destruct (submitPR w _ _ _) as [[]|]; simpl|]|];
    trace_simpl; intros Hin.
  all: destruct Hin as [H|[H|[H|[H|[H|[H|Hrest]]]]]]; try discriminate H;
    [injection H as <- <-|exfalso; intuition discriminate].
  all: split; [intros ->; discriminate Hfalsy|]; split; [reflexivity|]; eauto.
Qed.

(** X12. The pipeline writes one file only: the file it first read, as the
    test file, and what it writes there is the text the AI adapter returned
    for that file's contents, never an empty text. *)
Theorem written_file_is_the_test_file_read (w : World) (s : Server)
    (file : RepoFile) (target text : string) :
  fst (findFirstQueued s) = Returns (Some file) ->
  In (EvWriteFile target text) (new_effects s (tick w s)) ->
  text <> EmptyString /\
  hd_error (List.filter (fun e => if e is EvReadFile _ then true else false)
              (new_effects s (tick w s)))
    = Some (EvReadFile target) /\
  exists testFileContents fileContents,
    fs_readFile w target = Returns testFileContents /\
    generateSuggestions w testFileContents fileContents
      = Returns (Some text).
Proof.
  intros Hsel. rewrite (tick_effects w s file Hsel). apply pipeline_write.
Qed.

Lemma written_file_is_the_test_file_read_witness :
  "revised" <> EmptyString /\
  hd_error (List.filter (fun e => if e is EvReadFile _ then true else false)
              (new_effects (server_of one_queued)
                 (tick happy (server_of one_queued))))
    = Some (EvReadFile "./repos/widgets-0001/src/foo.test.ts").
Proof.
  destruct (written_file_is_the_test_file_read happy (server_of one_queued)
    {| fileId := 1; repoId := 1; path := "src/foo.ts"; status := Queued |}
    "./repos/widgets-0001/src/foo.test.ts" "revised")
    as (Hne & Hread & _).
  - reflexivity.
  - vm_compute. tauto.
  - split; [exact Hne|exact Hread].
Defined.

(** *** The test path *)


Lemma prefix_drop (pattern s : string) :
  String.prefix pattern s = true ->
  s = pattern +:+ drop_string (String.length pattern) s.
Proof.
  revert s. induction pattern as [|c pattern IH]; intros s H; [reflexivity|].
  destruct s as [|d s]; [discriminate H|]. simpl in *.
  destruct (Ascii.ascii_dec c d) as [<-|]; [|discriminate H].
  change (String c s =
          String c (pattern +:+ drop_string (String.length pattern) s)).
  f_equal. by apply IH.
Qed.

Lemma replace_first (pattern replacement s : string) (n : nat) :
  String.index 0 pattern s = Some n ->
  replace pattern replacement s =
    substring 0 n s +:+ replacement +:+
    drop_string (n + String.length pattern) s /\
  drop_string n s = pattern +:+ drop_string (n + String.length pattern) s.
Proof.
  revert n. induction s as [|c s IH]; intros n H.
  - destruct pattern; [|destruct n; discriminate H].
    injection H as <-. done.
  - cbn [String.index] in H. cbn [replace].
    destruct (String.prefix pattern (String c s)) eqn:Hp.
    + injection H as <-. split; [reflexivity|]. by apply prefix_drop.
    + destruct (String.index 0 pattern s) as [m|]; [|discriminate H].
      injection H as <-. destruct (IH m eq_refl) as [-> Hd].
      split; [reflexivity|exact Hd].
Qed.

Lemma length_append (a b : string) :
  String.length (a +:+ b) = (String.length a + String.length b)%nat.
Proof. induction a as [|c a IH]; simpl; [reflexivity|]. by rewrite IH. Qed.

Lemma substring_drop (s : string) (n : nat) :
  (n <= String.length s)%nat -> substring 0 n s +:+ drop_string n s = s.
Proof.
  revert n. induction s as [|c s IH]; intros n H.
  - destruct n; [reflexivity|simpl in H; lia].
  - destruct n as [|n]; [reflexivity|]. simpl in H.
    change (String c (substring 0 n s +:+ drop_string n s) = String c s).
    rewrite IH by lia. reflexivity.
Qed.

Lemma length_drop_string (s : string) (n : nat) :
  String.length (drop_string n s) = (String.length s - n)%nat.
Proof.
  revert s. induction n as [|n IH]; intros [|c s]; simpl; try reflexivity.
  apply IH.
Qed.



(** X11. When [.ts] occurs in a path, first at position [n], the test path
    is the path with [.test] inserted at [n]: what precedes and what
    follows the insertion is the path itself, and the test path is five
    characters longer, so it is never the source path. *)
Theorem test_path_inserts_test (p : string) (n : nat) :
  String.index 0 ".ts" p = Some n ->
  testPath p = substring 0 n p +:+ ".test" +:+ drop_string n p /\
  String.length (testPath p) = (String.length p + 5)%nat /\
  testPath p <> p.
Proof.
  intros H. destruct (replace_first ".ts" ".test.ts" p n H) as [Hr Hd].
  assert (Ht : testPath p = substring 0 n p +:+ ".test" +:+ drop_string n p).
  { unfold testPath. rewrite Hr, Hd. reflexivity. }
  assert (Hn : (n <= String.length p)%nat).
  { destruct (Nat.le_gt_cases n (String.length p)) as [|Hgt]; [done|].
    assert (String.length (drop_string n p) = 0%nat) as H0
      by (rewrite length_drop_string; lia).
    rewrite Hd in H0. discriminate H0. }
  assert (Hl : String.length (testPath p) = (String.length p + 5)%nat).
  { rewrite Ht. rewrite <- (substring_drop p n Hn) at 3.
    rewrite !length_append. simpl. lia. }
  split; [exact Ht|]. split; [exact Hl|].
  intros E. rewrite E in Hl. lia.
Qed.

Lemma test_path_inserts_test_witness :
  testPath "src/foo.ts" = "src/foo" +:+ ".test" +:+ ".ts".
Proof.
  refine (proj1 (test_path_inserts_test "src/foo.ts" 7 _)). reflexivity.
Defined.

(** *** The status a tick leaves *)

(** X28. The status a tick leaves in the record it selected tells how the
    run ended: 'processed' exactly when the pipeline returned [ok],
    'error' exactly when it returned an [err], 'processing' exactly when
    it rejected; the record is never left 'queued'. *)
Theorem tick_status_reflects_outcome (w : World) (s : Server)
    (file : RepoFile) (i : nat) :
  fst (findFirstQueued s) = Returns (Some file) ->
  files s !! i = Some file ->
  let result := fst (handleGenerateImprovements w file (marked file s)) in
  let left := status <$> files (tick w s) !! i in
  (left = Some Processed <-> result = Returns (ok tt)) /\
  (left = Some Error <-> exists e, result = Returns (err e)) /\
  (left = Some Processing <-> exists reason, result = Throws reason) /\
  left <> Some Queued.
Proof.
  intros Hsel Hi result left. subst left.
  rewrite (selected_status_after_tick w s file i Hsel Hi). fold result.
  destruct result as [[[]|e]|reason]; repeat split;
    try discriminate; try (intros [? ?]; discriminate); eauto.
Qed.

Lemma tick_status_reflects_outcome_witness :
  status <$> files (tick cp_fails (server_of one_queued)) !! 0%nat
    = Some Processing <->
  exists reason,
    fst (handleGenerateImprovements cp_fails
           {| fileId := 1; repoId := 1; path := "src/foo.ts";
              status := Queued |}
           (marked {| fileId := 1; repoId := 1; path := "src/foo.ts";
                      status := Queued |} (server_of one_queued)))
    = Throws reason.
Proof.
  refine (proj1 (proj2 (proj2
    (tick_status_reflects_outcome cp_fails (server_of one_queued)
       {| fileId := 1; repoId := 1; path := "src/foo.ts"; status := Queued |}
       0%nat _ _)))); reflexivity.
Defined.

(** X29. With one record per path, a tick that finds a queued record
    writes that record and no other: the table after the tick is the table
    before it with the status of the selected record replaced, by a status
    that is not 'queued'. *)
Theorem unique_paths_tick_writes_one (w : World) (s : Server)
    (file : RepoFile) :
  NoDup (map path (files s)) ->
  fst (findFirstQueued s) = Returns (Some file) ->
  exists i st,
    files s !! i = Some file /\ st <> Queued /\
    files (tick w s) = <[i := set_status st file]> (files s).
Proof.
  intros Hnd Hsel.
  destruct (findFirstQueued_lookup s file Hsel) as (_ & i & Hi).
  destruct (tick_files w s) as [_ Hfiles]. rewrite Hsel in Hfiles.
  destruct Hfiles as (sts & Hsts & ->).
  pose proof (update_where_path_unique (files s) i file Processing Hnd Hi)
    as H1.
  assert (H2 : forall st,
            update_where_path (path file) st
              (update_where_path (path file) Processing (files s))
            = <[i := set_status st file]> (files s)).
  { intros st.
    rewrite (update_where_path_unique _ i (set_status Processing file) st).
    - rewrite H1. by rewrite list_insert_insert_eq.
    - by rewrite update_where_path_paths.
    - by apply update_where_path_lookup. }
  exists i. destruct Hsts as [->|[->| ->]]; unfold writes; simpl.
  - exists Processing. by rewrite H1.
  - exists Processed. by rewrite H2.
  - exists Error. by rewrite H2.
Qed.

Lemma unique_paths_tick_writes_one_witness :
  exists i st,
    files (server_of one_queued) !! i
      = Some {| fileId := 1; repoId := 1; path := "src/foo.ts";
                status := Queued |} /\
    st <> Queued /\
    files (tick happy (server_of one_queued)) =
      <[i := set_status st
               {| fileId := 1; repoId := 1; path := "src/foo.ts";
                  status := Queued |}]> (files (server_of one_queued)).
Proof.
  apply (unique_paths_tick_writes_one happy (server_of one_queued)).
  - vm_compute. repeat constructor. intros H. inversion H.
  - reflexivity.
Defined.

Lemma unique_paths_forward_only_witness :
  forward_only 0
    (history (ticks [happy; cp_fails] (server_of one_queued)) ++
     [files (server_of one_queued)]).
Proof.
  apply (unique_paths_forward_only [happy; cp_fails] (server_of one_queued)
           0%nat).
  - vm_compute. repeat constructor. intros H. inversion H.
  - reflexivity.
Defined.
End TasksFacts.

(** * Properties of the type guards *)

Module GuardFacts.
Import SSE.

(** The progress guard returns a truthy value exactly on the payloads of
    the progress shape. *)
Lemma isTaskProgressEvent_shape (x : value) :
  holds (isTaskProgressEvent x) = progress_shape x.
Proof.
  destruct x as [| | [] | n | s | items | properties]; try reflexivity.
  - by destruct n.
  - by destruct s.
  - unfold isTaskProgressEvent, progress_shape, member, field.
    destruct (lookup_property "taskId" properties); try reflexivity.
    destruct (lookup_property "repoId" properties); try reflexivity.
    destruct (lookup_property "filePath" properties); try reflexivity.
    destruct (lookup_property "repoName" properties); try reflexivity.
    destruct (lookup_property "eventType" properties); try reflexivity;
      destruct (lookup_property "message" properties); reflexivity.
Qed.

Lemma isTaskStartedEvent_shape (x : value) :
  holds (isTaskStartedEvent x) =
  is_object x &&
  is_string (field x "taskId") && is_string (field x "repoId") &&
  is_string (field x "filePath") && is_string (field x "repoName").
Proof.
  destruct x as [| | [] | n | s | items | properties]; try reflexivity.
  - by destruct n.
  - by destruct s.
  - unfold isTaskStartedEvent, member, field.
    destruct (lookup_property "taskId" properties); try reflexivity.
    destruct (lookup_property "repoId" properties); try reflexivity.
    destruct (lookup_property "filePath" properties); try reflexivity.
    destruct (lookup_property "repoName" properties); reflexivity.
Qed.

(** A guard built on the progress guard: the progress guard first, the
    rest only on payloads it accepts. *)
Lemma holds_and (e1 e2 : outcome value) :
  holds (e1 &&& e2) = holds e1 && holds e2.
Proof.
  destruct e1 as [v|]; simpl; [|reflexivity].
  destruct (truthy v) eqn:E; simpl; [reflexivity|]. exact E.
Qed.

(** On a payload the progress guard accepts, reading a property is reading
    the object's own property. *)
Lemma progress_shape_member (x : value) (name : string) :
  progress_shape x = true -> member x name = Returns (field x name).
Proof. destruct x; try discriminate. reflexivity. Qed.

Lemma js_and_returns (e1 e2 : outcome value) :
  (exists v, e1 = Returns v) ->
  (holds e1 = true -> exists v, e2 = Returns v) ->
  exists v, e1 &&& e2 = Returns v.
Proof.
  intros [v ->] H2. simpl in *. destruct (truthy v); eauto.
Qed.

Lemma member_returns (x : value) (name : string) :
  truthy x = true -> exists v, member x name = Returns v.
Proof. destruct x; try discriminate; simpl; eauto. Qed.

Lemma typeof_is_returns (x : value) (name t : string) :
  truthy x = true -> exists v, typeof_is (member x name) t = Returns v.
Proof.
  intros H. destruct (member_returns x name H) as [v ->]. simpl. eauto.
Qed.

Lemma not_undefined_returns (x : value) (name : string) :
  truthy x = true -> exists v, not_undefined (member x name) = Returns v.
Proof.
  intros H. destruct (member_returns x name H) as [v ->]. simpl. eauto.
Qed.

Lemma progress_shape_truthy (x : value) :
  progress_shape x = true -> truthy x = true.
Proof. by destruct x. Qed.

Ltac guard_returns :=
  repeat (apply js_and_returns;
          [|rewrite ?holds_and, ?andb_true_iff; simpl; intros;
            repeat match goal with H : _ /\ _ |- _ => destruct H end;
            first [by apply typeof_is_returns
                  |by apply not_undefined_returns
                  |by apply member_returns]]);
  eauto.

(** No guard throws, whatever it is given. *)
Lemma guards_return (shape : Shape) (x : value) :
  exists v, guard shape x = Returns v.
Proof.
  assert (Hprogress : exists v, isTaskProgressEvent x = Returns v).
  { unfold isTaskProgressEvent. guard_returns. }
  destruct shape; simpl.
  - exact Hprogress.
  - unfold isTaskStartedEvent. guard_returns.
  - unfold isTaskCompletedEvent. apply js_and_returns; [exact Hprogress|].
    rewrite isTaskProgressEvent_shape. intros H.
    rewrite (progress_shape_member x _ H). simpl. eauto.
  - unfold isTaskErrorEvent.
    apply js_and_returns; [apply js_and_returns; [exact Hprogress|]|];
      rewrite ?holds_and, ?isTaskProgressEvent_shape, ?andb_true_iff.
    + intros H. rewrite (progress_shape_member x _ H). simpl. eauto.
    + intros [H _]. rewrite (progress_shape_member x _ H). simpl.
      destruct (field x "metadata") as [| | | | |items|properties];
        simpl; eauto.
  - unfold isHeartbeatEvent. guard_returns.
Qed.

Lemma sentinel_test (x : value) (sentinel : string) :
  progress_shape x = true ->
  holds (is_string_literal (member x "eventType") sentinel) = true <->
  field x "eventType" = VString sentinel.
Proof.
  intros Hshape. rewrite (progress_shape_member x _ Hshape). simpl. split.
  - destruct (field x "eventType") as [| | | |s| |]; try discriminate.
    by intros ->%String.eqb_eq.
  - intros ->. apply String.eqb_refl.
Qed.

Lemma progress_shape_tested (x : value) (sentinel : string) :
  progress_shape x = true /\ field x "eventType" = VString sentinel <->
  tested_strings x = true /\ field x "eventType" = VString sentinel.
Proof.
  unfold progress_shape, tested_strings. rewrite !andb_true_iff.
  split; intros [H E]; (split; [|exact E]); rewrite E in *; simpl in *;
    tauto.
Qed.

Lemma error_test (x : value) :
  progress_shape x = true ->
  holds (not_undefined (optional_member (member x "metadata") "error"))
    = true <->
  field (field x "metadata") "error" <> VUndefined.
Proof.
  intros Hshape. rewrite (progress_shape_member x _ Hshape).
  destruct (field x "metadata") as [| | | | | |properties]; simpl;
    try (split; [discriminate|congruence]).
  destruct (lookup_property "error" properties); simpl;
    split; congruence.
Qed.

(** C9, as stated, fails.  The completed guard accepts a payload that has
    the 'complete' sentinel and no timestamp, which the progress payload
    must have; the error guard accepts a payload whose [metadata.error] is
    [null], which is no populated error. *)
Lemma guards_accept_more_than_the_shape :
  ~ (forall x,
       holds (isTaskCompletedEvent x) = true <->
       TaskProgressEvent x = true /\ field x "eventType" = VString COMPLETE) /\
  ~ (forall x,
       holds (isTaskErrorEvent x) = true <->
       TaskProgressEvent x = true /\ field x "eventType" = VString ERROR /\
       populated_error x = true).
Proof.
  split; intros H.
  - destruct (proj1 (H Scenario.complete_without_timestamp) eq_refl)
      as [Hshape _].
    discriminate Hshape.
  - destruct (proj1 (H Scenario.error_with_null) eq_refl) as (_ & _ & Herr).
    discriminate Herr.
Qed.

(** C9, amended. For every decoded payload x: if x structurally matches a
    progress payload and its eventType equals the 'complete' sentinel,
    isTaskCompletedEvent(x) holds, and if it matches with the 'error'
    sentinel and a populated metadata.error, isTaskErrorEvent(x) holds.
    Conversely isTaskCompletedEvent(x) holds exactly when x is an object
    whose taskId, repoId, filePath, repoName and message are strings and
    whose eventType equals 'complete', and isTaskErrorEvent(x) exactly when
    x is such an object with eventType 'error' whose metadata.error is not
    undefined: the timestamp, the rest of the metadata and the type of
    metadata.error are not examined. *)
Theorem completed_and_error_guards_test_less (x : value) :
  (TaskProgressEvent x = true /\ field x "eventType" = VString COMPLETE ->
   holds (isTaskCompletedEvent x) = true) /\
  (TaskProgressEvent x = true /\ field x "eventType" = VString ERROR /\
   populated_error x = true ->
   holds (isTaskErrorEvent x) = true) /\
  (holds (isTaskCompletedEvent x) = true <->
   tested_strings x = true /\ field x "eventType" = VString COMPLETE) /\
  (holds (isTaskErrorEvent x) = true <->
   tested_strings x = true /\ field x "eventType" = VString ERROR /\
   field (field x "metadata") "error" <> VUndefined).
Proof.
  assert (Hc : holds (isTaskCompletedEvent x) = true <->
               tested_strings x = true /\
               field x "eventType" = VString COMPLETE).
  { unfold isTaskCompletedEvent.
    rewrite holds_and, andb_true_iff, isTaskProgressEvent_shape.
    rewrite <- progress_shape_tested. split.
    - intros [Hshape H]. split; [exact Hshape|]. by apply sentinel_test.
    - intros [Hshape H]. split; [exact Hshape|]. by apply sentinel_test. }
  assert (He : holds (isTaskErrorEvent x) = true <->
               tested_strings x = true /\
               field x "eventType" = VString ERROR /\
               field (field x "metadata") "error" <> VUndefined).
  { unfold isTaskErrorEvent.
    rewrite !holds_and, !andb_true_iff, isTaskProgressEvent_shape. split.
    - intros [[Hshape H] Herr].
      apply (sentinel_test x ERROR Hshape) in H.
      apply (error_test x Hshape) in Herr.
      destruct (proj1 (progress_shape_tested x ERROR) (conj Hshape H)).
      tauto.
    - intros (Ht & H & Herr).
      destruct (proj2 (progress_shape_tested x ERROR) (conj Ht H))
        as [Hshape _].
      repeat split; [exact Hshape|by apply sentinel_test|by apply error_test]. }
  assert (Hwf : TaskProgressEvent x = true -> tested_strings x = true).
  { unfold TaskProgressEvent, tested_strings. rewrite !andb_true_iff.
    tauto. }
  split; [|split; [|split; [exact Hc|exact He]]].
  - intros [Hx E]. apply Hc. auto.
  - intros (Hx & E & Herr). apply He. repeat split; auto.
    unfold populated_error in Herr.
    by destruct (field (field x "metadata") "error").
Qed.

Lemma completed_and_error_guards_test_less_witness :
  populated_error Scenario.error_payload = true /\
  holds (isTaskErrorEvent Scenario.error_payload) = true.
Proof.
  split; [reflexivity|].
  apply (proj1 (proj2
    (completed_and_error_guards_test_less Scenario.error_payload))).
  repeat split.
Defined.

Lemma matches_template_nonempty (template s : string) :
  template <> EmptyString -> matches_template template s = true ->
  s <> EmptyString.
Proof. destruct template, s; simpl; congruence. Qed.

Lemma is_Date_truthy (v : value) : is_Date v = true -> truthy v = true.
Proof.
  destruct v as [| | | |s| |]; try discriminate.
  unfold is_Date, truthy. rewrite !orb_true_iff. intros H.
  assert (s <> EmptyString) as Hs.
  { destruct H as [[H|H]|H];
      by apply matches_template_nonempty in H. }
  by destruct s.
Qed.

(** C10. For every well-formed payload of a known event shape (progress,
    started, completed, error, heartbeat), the corresponding shape-check
    helper returns a positive result: a well-formed payload is never
    rejected. *)
Theorem well_formed_payload_accepted (shape : Shape) (x : value) :
  well_formed shape x = true -> holds (guard shape x) = true.
Proof.
  assert (Hprogress : TaskProgressEvent x = true -> progress_shape x = true).
  { unfold TaskProgressEvent, progress_shape.
    rewrite !andb_true_iff.
    intros [[[[[[[[? ?] ?] ?] ?] Htype] ?] _] _]. repeat split; try done.
    by destruct (field x "eventType"). }
  destruct shape; simpl.
  - rewrite isTaskProgressEvent_shape. exact Hprogress.
  - rewrite isTaskStartedEvent_shape. unfold TaskStartedEvent.
    rewrite !andb_true_iff. tauto.
  - unfold TaskCompletedEvent, isTaskCompletedEvent.
    rewrite holds_and, isTaskProgressEvent_shape, !andb_true_iff.
    intros [Hwf Htype]. apply Hprogress in Hwf. split; [exact Hwf|].
    rewrite (progress_shape_member x _ Hwf). exact Htype.
  - unfold TaskErrorEvent, isTaskErrorEvent.
    rewrite !holds_and, isTaskProgressEvent_shape, !andb_true_iff.
    intros [[[Hwf Htype] Hmeta] Herr]. apply Hprogress in Hwf.
    rewrite !(progress_shape_member x _ Hwf). repeat split; try done.
    destruct (field x "metadata") as [| | | | | |properties];
      try discriminate Hmeta. simpl in *.
    by destruct (lookup_property "error" properties).
  - unfold HeartbeatEvent, isHeartbeatEvent.
    rewrite holds_and, !andb_true_iff. intros [Hobj Hdate].
    destruct x; try discriminate Hobj.
    split; [reflexivity|]. by apply is_Date_truthy.
Qed.

Lemma well_formed_payload_accepted_witness :
  well_formed ErrorShape Scenario.error_payload = true /\
  holds (guard ErrorShape Scenario.error_payload) = true.
Proof.
  split; [reflexivity|].
  apply (well_formed_payload_accepted ErrorShape Scenario.error_payload).
  reflexivity.
Defined.

(** The guards do accept payloads that are not well formed: a heartbeat
    whose timestamp is a number, an error whose [metadata.error] is
    [null]. *)
Example heartbeat_guard_accepts_number :
  holds (isHeartbeatEvent (VObject [("timestamp", VNumber 5)])) = true /\
  HeartbeatEvent (VObject [("timestamp", VNumber 5)]) = false.
Proof. split; reflexivity. Qed.

Example error_guard_accepts_null :
  let x :=
    VObject
      [ ("taskId", VString "7"); ("repoId", VString "1");
        ("filePath", VString "src/foo.ts"); ("repoName", VString "widgets");
        ("eventType", VString "error"); ("message", VString "failed");
        ("metadata", VObject [("error", VNull)]) ] in
  holds (isTaskErrorEvent x) = true /\ TaskErrorEvent x = false.
Proof. split; reflexivity. Qed.
(** ** More on the guards *)

Lemma js_and_falsy (v : value) (e : outcome value) :
  truthy v = false -> Returns v &&& e = Returns v.
Proof. intros H. unfold js_and. by rewrite H. Qed.

Lemma guard_of_falsy (shape : Shape) (x : value) :
  truthy x = false -> guard shape x = Returns x.
Proof.
  intros H.
  destruct shape; simpl;
    unfold isTaskCompletedEvent, isTaskErrorEvent, isTaskProgressEvent,
      isTaskStartedEvent, isHeartbeatEvent;
    by rewrite !(js_and_falsy x _ H).
Qed.

(** X25. No guard throws, whatever it is given, [null] and [undefined]
    included; and what a guard returns is not always a boolean: given a
    falsy value ([null], [undefined], [false], [0], the empty string) each
    guard returns that value itself. *)
Theorem guards_never_throw (shape : Shape) (x : value) :
  (exists v, guard shape x = Returns v) /\
  (truthy x = false -> guard shape x = Returns x /\
                       holds (guard shape x) = false).
Proof.
  split; [apply guards_return|].
  intros H. rewrite (guard_of_falsy shape x H). simpl. done.
Qed.

(** X26. The guards are ordered: a payload the completed guard or the
    error guard accepts is accepted by the progress guard, a payload the
    progress guard accepts is accepted by the started guard, and no payload
    is accepted by both the completed and the error guard. *)
Theorem guards_are_ordered (x : value) :
  (holds (isTaskCompletedEvent x) = true ->
   holds (isTaskProgressEvent x) = true) /\
  (holds (isTaskErrorEvent x) = true ->
   holds (isTaskProgressEvent x) = true) /\
  (holds (isTaskProgressEvent x) = true ->
   holds (isTaskStartedEvent x) = true) /\
  ~ (holds (isTaskCompletedEvent x) = true /\
     holds (isTaskErrorEvent x) = true).
Proof.
  unfold isTaskCompletedEvent, isTaskErrorEvent.
  rewrite !holds_and, !andb_true_iff, isTaskProgressEvent_shape,
    isTaskStartedEvent_shape.
  split; [tauto|]. split; [tauto|]. split.
  - unfold progress_shape. rewrite !andb_true_iff. tauto.
  - intros [[Hshape Hc] [[_ He] _]].
    rewrite (progress_shape_member x _ Hshape) in Hc, He. simpl in Hc, He.
    destruct (field x "eventType") as [| | | |s| |]; try discriminate Hc.
    apply String.eqb_eq in Hc as ->. discriminate He.
Qed.

(** X27. The heartbeat guard accepts exactly the objects whose
    [timestamp] is truthy, and what it returns for an object is the
    timestamp itself, not a boolean. *)
Theorem heartbeat_guard_returns_timestamp (x : value) :
  (holds (isHeartbeatEvent x) = true <->
   is_object x = true /\ truthy (field x "timestamp") = true) /\
  (is_object x = true ->
   isHeartbeatEvent x = Returns (field x "timestamp")).
Proof.
  unfold isHeartbeatEvent. split.
  - rewrite holds_and, andb_true_iff.
    destruct x; simpl; intuition discriminate.
  - destruct x; try discriminate. reflexivity.
Qed.
End GuardFacts.

(** * Properties of the event-source provider *)

Module HubFacts.
Import SSE.




(** *** The back-off *)

Lemma backoffDelay_min (n : nat) :
  backoffDelay n = Z.min (1000 * 2 ^ Z.of_nat n) 30000.
Proof.
  assert (H15 : (30000 <= 2 ^ 1024)%Z).
  { transitivity (2 ^ 15)%Z; [by vm_compute|].
    apply Z.pow_le_mono_r; lia. }
  unfold backoffDelay, Math_pow2, times, Math_min.
  destruct (Nat.leb_spec n 1023) as [Hn|Hn].
  - destruct (Z.ltb_spec (1000 * 2 ^ Z.of_nat n) (2 ^ 1024)) as [Hlt|Hge];
      [reflexivity|].
    symmetry. apply Z.min_r. lia.
  - symmetry. apply Z.min_r.
    assert (2 ^ 5 <= 2 ^ Z.of_nat n)%Z by (apply Z.pow_le_mono_r; lia).
    change (2 ^ 5)%Z with 32%Z in *. lia.
Qed.

Lemma backoffDelay_capped (k : nat) : backoffDelay (5 + k) = 30000%Z.
Proof.
  rewrite backoffDelay_min. apply Z.min_r.
  assert (2 ^ 5 <= 2 ^ Z.of_nat (5 + k))%Z by (apply Z.pow_le_mono_r; lia).
  change (2 ^ 5)%Z with 32%Z in *. lia.
Qed.

Lemma connect_keeps_backoff (env : Env) (sseUrl : string) (h : Hub) :
  reconnectAttemptsRef (after (connect env sseUrl) h) = reconnectAttemptsRef h /\
  scheduled (after (connect env sseUrl) h) = scheduled h.
Proof.
  unfold after, connect, bind, try_catch, newEventSource, gets, bind, await;
    simpl.
  destruct (eventSourceRef h); simpl;
    destruct (new_EventSource env sseUrl); simpl; done.
Qed.

Lemma failures_from_zero (env : Env) (sseUrl : string) (n : nat) (h : Hub) :
  reconnectAttemptsRef h = 0%nat ->
  reconnectAttemptsRef (failures env sseUrl n h) = n /\
  scheduled (failures env sseUrl n h) =
    scheduled h ++ map backoffDelay (seq 0 n).
Proof.
  intros H0. induction n as [|n [IHa IHs]].
  - simpl. by rewrite app_nil_r.
  - cbn [failures]. rewrite seq_S, map_app, app_assoc, <- IHs.
    destruct (connect_keeps_backoff env sseUrl
                (after onerror (failures env sseUrl n h))) as [-> ->].
    unfold after, onerror, bind, gets; simpl.
    by rewrite IHa.
Qed.


(** *** The registry *)

Lemma addEventListener_lookup (eventType : SSEEventType)
    (listener : EventListener) (h : Hub) :
  listenersRef (after (addEventListener eventType listener) h) !! eventType =
  Some (set_add (default [] (listenersRef h !! eventType)) listener).
Proof.
  unfold after, addEventListener, bind, gets, setListeners, modify, ret;
    simpl.
  destruct (listenersRef h !! eventType) as [listeners|] eqn:E.
  - rewrite bool_decide_eq_true_2 by eauto. simpl.
    by rewrite lookup_insert_eq, E.
  - rewrite bool_decide_eq_false_2 by (intros [? ?]; discriminate). simpl.
    by rewrite !lookup_insert_eq.
Qed.

(** Subscribing a listener that is subscribed already changes nothing in
    the set of its kind. *)
Lemma set_add_idempotent (l : list EventListener) (x : EventListener) :
  set_add (set_add l x) x = set_add l x.
Proof.
  unfold set_add. destruct (bool_decide (x ∈ l)) eqn:E.
  - by rewrite E.
  - rewrite bool_decide_eq_true_2; [done|].
    apply elem_of_app. right. by apply list_elem_of_singleton.
Qed.

Lemma removeEventListener_lookup (eventType : SSEEventType)
    (listener : EventListener) (h : Hub) :
  listenersRef (after (removeEventListener eventType listener) h)
    !! eventType =
  match listenersRef h !! eventType with
  | Some listeners =>
    if (length (set_delete listeners listener) =? 0)%nat then None
    else Some (set_delete listeners listener)
  | None => None
  end.
Proof.
  unfold after, removeEventListener, bind, gets, setListeners, modify, ret;
    simpl.
  destruct (listenersRef h !! eventType) as [listeners|] eqn:E; simpl;
    [|exact E].
  destruct (length (set_delete listeners listener) =? 0)%nat; simpl.
  - by rewrite lookup_delete_eq.
  - by rewrite lookup_insert_eq.
Qed.

(** After [removeEventListener] the listener is not in the set of the
    kind. *)
Lemma set_delete_gone (l : list EventListener) (x : EventListener) :
  ~ In x (set_delete l x).
Proof.
  unfold set_delete. rewrite filter_In. intros [_ H].
  by rewrite Nat.eqb_refl in H.
Qed.

(** *** Delivery *)

(** One guarded call: the listener is called, and a throw ends in the
    console. *)
Lemma guarded_run (env : Env) (event : SSEEvent) (l : EventListener)
    (h : Hub) :
  exists h', guarded env event l h = (Returns tt, h') /\
    invoked h' = invoked h ++ [(l, event)] /\
    apart_from_calls h' = apart_from_calls h.
Proof.
  unfold guarded, try_catch, invoke, bind, await, modify.
  destruct (listener_call env l event) as [[]|reason]; simpl; eauto.
Qed.

(** The loop of [notifyListeners]: every listener of the list is called
    once, in order, whether or not an earlier one threw, and the loop
    itself does not throw. *)
Lemma notify_loop (env : Env) (event : SSEEvent)
    (listeners : list EventListener) (h : Hub) :
  exists h', forEach listeners (guarded env event) h = (Returns tt, h') /\
    invoked h' = invoked h ++ map (fun l => (l, event)) listeners /\
    apart_from_calls h' = apart_from_calls h.
Proof.
  revert h. induction listeners as [|l listeners IH]; intros h; simpl.
  - exists h. by rewrite app_nil_r.
  - unfold bind.
    destruct (guarded_run env event l h) as (h1 & -> & Hi1 & Ha1).
    destruct (IH h1) as (h2 & -> & Hi2 & Ha2).
    exists h2. rewrite Hi2, Hi1, Ha2, Ha1, <- app_assoc. done.
Qed.

Lemma notifyListeners_run (env : Env) (event : SSEEvent) (h : Hub) :
  let run := notifyListeners env event h in
  fst run = Returns tt /\
  invoked (snd run) =
    invoked h ++
    map (fun l => (l, event)) (default [] (listenersRef h !! type event)) /\
  apart_from_calls (snd run) = apart_from_calls h.
Proof.
  unfold notifyListeners, bind, gets; cbn -[forEach].
  destruct (listenersRef h !! type event) as [listeners|]; cbn -[forEach].
  - destruct (notify_loop env event listeners h) as (h' & Hrun & ? & ?).
    unfold guarded in Hrun. by rewrite Hrun.
  - by rewrite app_nil_r.
Qed.

(** A text [JSON.parse] rejects: the handler logs and does nothing else. *)
Lemma onmessage_malformed (env : Env) (eventType : SSEEventType)
    (text reason : string) (h : Hub) :
  JSON_parse env text = Throws reason ->
  onmessage env eventType text h =
    console_log ("Error parsing SSE event " +:+ eventName eventType +:+
                 ": " +:+ reason) h.
Proof.
  intros Hparse. unfold onmessage, try_catch, bind, await.
  by rewrite Hparse.
Qed.

Lemma onmessage_run (env : Env) (eventType : SSEEventType) (text : string)
    (h : Hub) :
  fst (onmessage env eventType text h) = Returns tt /\
  invoked (after (onmessage env eventType text) h) =
    invoked h ++
    deliveries (JSON_parse env) (listenersRef h) [(eventType, text)] /\
  connectionState (after (onmessage env eventType text) h)
    = connectionState h /\
  listenersRef (after (onmessage env eventType text) h) = listenersRef h.
Proof.
  destruct (JSON_parse env text) as [data|reason] eqn:Hparse.
  - unfold after, onmessage, try_catch, bind at 1, await. rewrite Hparse.
    unfold bind, setLastEvent, modify.
    match goal with
    | |- context [notifyListeners env ?e ?h'] =>
      destruct (notifyListeners_run env e h') as (Hr & Hi & Ha);
      destruct (notifyListeners env e h') as [o h1]
    end.
    simpl in *. subst o. simpl. rewrite Hparse, app_nil_r.
    unfold apart_from_calls, connectionState in *. simpl in Ha.
    repeat split; [exact Hi|congruence|congruence].
  - unfold after.
    rewrite (onmessage_malformed env eventType text reason h Hparse).
    simpl. rewrite Hparse. simpl. by rewrite app_nil_r.
Qed.

Lemma messages_run (env : Env) (events : list (SSEEventType * string))
    (h : Hub) :
  invoked (messages env events h) =
    invoked h ++ deliveries (JSON_parse env) (listenersRef h) events /\
  connectionState (messages env events h) = connectionState h /\
  listenersRef (messages env events h) = listenersRef h.
Proof.
  revert h. induction events as [|[eventType text] events IH]; intros h.
  - simpl. by rewrite app_nil_r.
  - cbn [messages].
    destruct (IH (after (onmessage env eventType text) h)) as (-> & -> & ->).
    destruct (onmessage_run env eventType text h) as (_ & -> & -> & ->).
    cbn [deliveries]. rewrite app_nil_r, <- app_assoc. done.
Qed.
(** Whatever happens to the provider, its attempt counter is the number
    of failures since the last open. *)
Lemma run_counts_failures (env : Env) (sseUrl : string)
    (inputs : list Input) (h : Hub) :
  reconnectAttemptsRef (run env sseUrl inputs h) =
  failures_since_open inputs (reconnectAttemptsRef h).
Proof.
  revert h. induction inputs as [|input inputs IH]; intros h; [reflexivity|].
  cbn [run]. rewrite IH. unfold failures_since_open. cbn [fold_left].
  f_equal. destruct input as [| | |eventType text|eventType l|eventType l].
  - reflexivity.
  - reflexivity.
  - cbn [handle]. by destruct (connect_keeps_backoff env sseUrl h) as [-> _].
  - cbn [handle].
    destruct (onmessage_run env eventType text h) as (_ & _ & Hc & _).
    unfold connectionState in Hc. congruence.
  - cbn [handle]. unfold after, addEventListener, bind, gets, setListeners,
      modify, ret; simpl.
    by destruct (bool_decide _).
  - cbn [handle]. unfold after, removeEventListener, bind, gets,
      setListeners, modify, ret; simpl.
    destruct (listenersRef h !! eventType); simpl; [|reflexivity].
    by destruct (length _ =? 0)%nat.
Qed.

(** The delay a failure schedules is the back-off of the number of
    failures since the last open, whatever else happened in between. *)
Lemma failure_schedules_backoff (env : Env) (sseUrl : string)
    (inputs : list Input) (h : Hub) :
  scheduled (after onerror (run env sseUrl inputs h)) =
  scheduled (run env sseUrl inputs h) ++
  [backoffDelay (failures_since_open inputs (reconnectAttemptsRef h))].
Proof.
  unfold after at 1. unfold onerror, bind, gets; simpl.
  by rewrite run_counts_failures.
Qed.

(** C6. For every number n of consecutive connection failures, counted
    from 0, the scheduled reconnection delay is min(1000 * 2^n, 30000)
    milliseconds: 1000, 2000, 4000, 8000, 16000, 30000, 30000, ...; and the
    attempt counter is 0 immediately after any successful open.  The
    failures are those of [failures], each followed by its timer, and, in
    the fifth part, those among any [inputs] since the last open. *)
Theorem reconnect_delay_sequence (env : Env) (sseUrl : string) (h : Hub)
    (n : nat) (inputs : list Input) :
  reconnectAttemptsRef (after onopen h) = 0%nat /\
  scheduled (failures env sseUrl n (after onopen h)) =
    scheduled h ++
    map (fun k => Z.min (1000 * 2 ^ Z.of_nat k) 30000) (seq 0 n) /\
  scheduled (failures env sseUrl n (after (connect env sseUrl) initialHub)) =
    map (fun k => Z.min (1000 * 2 ^ Z.of_nat k) 30000) (seq 0 n) /\
  scheduled (after onerror (failures env sseUrl n (after onopen h))) =
    scheduled (failures env sseUrl n (after onopen h)) ++
    [Z.min (1000 * 2 ^ Z.of_nat n) 30000] /\
  scheduled (after onerror (run env sseUrl inputs (after onopen h))) =
    scheduled (run env sseUrl inputs (after onopen h)) ++
    [Z.min (1000 * 2 ^ Z.of_nat (failures_since_open inputs 0)) 30000] /\
  map backoffDelay (seq 0 7) =
    [1000; 2000; 4000; 8000; 16000; 30000; 30000]%Z /\
  (forall k, backoffDelay (5 + k) = 30000%Z).
Proof.
  assert (Hmap : forall l, map backoffDelay l =
            map (fun k => Z.min (1000 * 2 ^ Z.of_nat k) 30000) l).
  { intros l. apply map_ext. intros k. apply backoffDelay_min. }
  split; [reflexivity|].
  destruct (failures_from_zero env sseUrl n (after onopen h) eq_refl)
    as [Hattempts Hsched].
  split; [|split; [|split; [|split; [|split]]]].
  - rewrite Hsched, Hmap. reflexivity.
  - destruct (failures_from_zero env sseUrl n
                (after (connect env sseUrl) initialHub)) as [_ ->].
    + by destruct (connect_keeps_backoff env sseUrl initialHub) as [-> _].
    + destruct (connect_keeps_backoff env sseUrl initialHub) as [_ ->].
      by rewrite Hmap.
  - unfold after at 1. unfold onerror, bind, gets; simpl.
    fold (after onopen h). by rewrite Hattempts, backoffDelay_min.
  - by rewrite failure_schedules_backoff, backoffDelay_min.
  - reflexivity.
  - apply backoffDelay_capped.
Qed.

(** C7. For every event kind, when an incoming event's textual payload
    fails to parse as structured data, no listener is invoked, lastEvent
    is unchanged, the connection state is unchanged, and no exception
    escapes the event handler. *)
Theorem malformed_payload_is_dropped (env : Env) (eventType : SSEEventType)
    (text reason : string) (h : Hub) :
  JSON_parse env text = Throws reason ->
  fst (onmessage env eventType text h) = Returns tt /\
  invoked (after (onmessage env eventType text) h) = invoked h /\
  lastEvent (after (onmessage env eventType text) h) = lastEvent h /\
  connectionState (after (onmessage env eventType text) h)
    = connectionState h /\
  listenersRef (after (onmessage env eventType text) h) = listenersRef h /\
  apart_from_calls (after (onmessage env eventType text) h)
    = apart_from_calls h.
Proof.
  intros Hparse. unfold after.
  by rewrite (onmessage_malformed env eventType text reason h Hparse).
Qed.


Lemma malformed_payload_is_dropped_witness :
  JSON_parse Scenario.page "{"
    = Throws "SyntaxError: Unexpected end of JSON input" /\
  invoked (after (onmessage Scenario.page task_progress "{")
             Scenario.subscribed) = invoked Scenario.subscribed.
Proof.
  split; [reflexivity|].
  refine (proj1 (proj2
    (malformed_payload_is_dropped Scenario.page task_progress "{"
       "SyntaxError: Unexpected end of JSON input" Scenario.subscribed _))).
  reflexivity.
Defined.

(** C8. For every received event and every set of registered listeners
    for its kind: if one listener throws, every other listener registered
    for that kind is still invoked with the event, and the throw does not
    affect connection state, listeners of other kinds, or delivery of later
    events.  The listeners of [env] throw or return at will. *)
Theorem throwing_listener_is_contained (env : Env) (event : SSEEvent)
    (h : Hub) (later : list (SSEEventType * string)) :
  let h' := after (notifyListeners env event) h in
  fst (notifyListeners env event h) = Returns tt /\
  invoked h' =
    invoked h ++
    map (fun l => (l, event)) (default [] (listenersRef h !! type event)) /\
  connectionState h' = connectionState h /\
  listenersRef h' = listenersRef h /\
  apart_from_calls h' = apart_from_calls h /\
  invoked (messages env later h') =
    invoked h' ++ deliveries (JSON_parse env) (listenersRef h) later /\
  connectionState (messages env later h') = connectionState h /\
  listenersRef (messages env later h') = listenersRef h.
Proof.
  intros h'. subst h'. unfold after.
  destruct (notifyListeners_run env event h) as (Hr & Hi & Ha).
  destruct (messages_run env later (notifyListeners env event h).2)
    as (Hmi & Hmc & Hml).
  assert (Hc : connectionState (notifyListeners env event h).2
               = connectionState h).
  { unfold apart_from_calls, connectionState in *. congruence. }
  assert (Hl : listenersRef (notifyListeners env event h).2 = listenersRef h).
  { unfold apart_from_calls in Ha. congruence. }
  rewrite Hmi, Hmc, Hml, Hl, Hc. done.
Qed.

(** Listener 1 throws on a progress event: listeners 0 and 2 are called
    all the same, the heartbeat listener is not, and the throw ends in the
    console. *)
Example thrower_between_two_listeners :
  let event := {| type := task_progress; data := VObject [] |} in
  let h := after (onmessage Scenario.page task_progress "{}")
             Scenario.subscribed in
  listener_call Scenario.page 1 event = Throws "boom" /\
  invoked h = [(0%nat, event); (1%nat, event); (2%nat, event)] /\
  last (console h) = Some "Error in event listener for task-progress: boom" /\
  connectionState h = connectionState Scenario.subscribed.
Proof. repeat split; reflexivity. Qed.
(** ** More on the provider *)

(** *** Invariants of a running provider *)

Lemma run_invariant (env : Env) (sseUrl : string) (P : Hub -> Prop) :
  (forall h input, P h -> P (after (handle env sseUrl input) h)) ->
  forall inputs h, P h -> P (run env sseUrl inputs h).
Proof.
  intros Hstep inputs. induction inputs as [|input inputs IH]; intros h Hh;
    [exact Hh|].
  cbn [run]. apply IH, Hstep, Hh.
Qed.

Lemma onmessage_frame (env : Env) (eventType : SSEEventType) (text : string)
    (h : Hub) :
  frame (after (onmessage env eventType text) h) = frame h.
Proof.
  destruct (JSON_parse env text) as [data|reason] eqn:Hparse.
  - unfold after, onmessage, try_catch, bind at 1, await. rewrite Hparse.
    unfold bind, setLastEvent, modify.
    match goal with
    | |- context [notifyListeners env ?e ?h'] =>
      destruct (notifyListeners_run env e h') as (Hr & _ & Ha);
      destruct (notifyListeners env e h') as [o h1]
    end.
    simpl in *. subst o. simpl.
    unfold apart_from_calls, frame in *. simpl in Ha. congruence.
  - unfold after.
    by rewrite (onmessage_malformed env eventType text reason h Hparse).
Qed.

Lemma addEventListener_after (eventType : SSEEventType)
    (listener : EventListener) (h : Hub) :
  after (addEventListener eventType listener) h =
  after (setListeners
           (<[eventType :=
                set_add (default [] (listenersRef h !! eventType)) listener]>
              (listenersRef h))) h.
Proof.
  unfold after, addEventListener, bind, gets, setListeners, modify, ret;
    simpl.
  destruct (listenersRef h !! eventType) as [listeners|] eqn:E.
  - rewrite bool_decide_eq_true_2 by eauto. simpl. by rewrite E.
  - rewrite bool_decide_eq_false_2 by (intros [? ?]; discriminate). simpl.
    by rewrite lookup_insert_eq, insert_insert_eq.
Qed.

Lemma removeEventListener_after (eventType : SSEEventType)
    (listener : EventListener) (h : Hub) :
  after (removeEventListener eventType listener) h =
  match listenersRef h !! eventType with
  | Some listeners =>
    after (setListeners
             (if (length (set_delete listeners listener) =? 0)%nat
              then delete eventType (listenersRef h)
              else <[eventType := set_delete listeners listener]>
                     (listenersRef h))) h
  | None => h
  end.
Proof.
  unfold after, removeEventListener, bind, gets, setListeners, modify, ret;
    simpl.
  destruct (listenersRef h !! eventType) as [listeners|] eqn:E; simpl;
    [|reflexivity].
  destruct (length (set_delete listeners listener) =? 0)%nat; simpl;
    [|reflexivity].
  by rewrite delete_insert_eq.
Qed.

Lemma set_add_NoDup (l : list EventListener) (x : EventListener) :
  NoDup l -> NoDup (set_add l x) /\ set_add l x <> [].
Proof.
  intros Hnd. unfold set_add. destruct (bool_decide (x ∈ l)) eqn:E.
  - split; [exact Hnd|]. apply bool_decide_eq_true in E.
    intros ->. by apply not_elem_of_nil in E.
  - apply bool_decide_eq_false in E. split; [|by destruct l].
    apply NoDup_app. split; [exact Hnd|]. split; [|apply NoDup_singleton].
    intros y Hy Hx. apply list_elem_of_singleton in Hx as ->. done.
Qed.

Lemma set_delete_NoDup (l : list EventListener) (x : EventListener) :
  NoDup l -> NoDup (set_delete l x).
Proof.
  intros Hnd. unfold set_delete. apply NoDup_ListNoDup.
  apply List.NoDup_filter. by apply NoDup_ListNoDup.
Qed.

Lemma registry_ok_step (env : Env) (sseUrl : string) (h : Hub)
    (input : Input) :
  registry_ok h -> registry_ok (after (handle env sseUrl input) h).
Proof.
  intros Hok. destruct input as [| | |k text|k l|k l]; cbn [handle].
  - exact Hok.
  - exact Hok.
  - unfold registry_ok, after, connect, bind, try_catch, newEventSource,
      gets, bind, await; simpl.
    destruct (eventSourceRef h); simpl;
      destruct (new_EventSource env sseUrl); simpl; exact Hok.
  - pose proof (onmessage_frame env k text h) as Hf.
    unfold frame in Hf. unfold registry_ok in *.
    assert (listenersRef (after (onmessage env k text) h) = listenersRef h)
      as -> by congruence.
    exact Hok.
  - rewrite addEventListener_after. unfold registry_ok, after; simpl.
    intros k' ls. destruct (decide (k = k')) as [<-|Hne].
    + rewrite lookup_insert_eq. intros [= <-]. apply set_add_NoDup.
      destruct (listenersRef h !! k) as [ls0|] eqn:E; simpl;
        [by apply (Hok k ls0)|apply NoDup_nil_2].
    + rewrite lookup_insert_ne by done. apply Hok.
  - rewrite removeEventListener_after.
    destruct (listenersRef h !! k) as [ls0|] eqn:E; [|exact Hok].
    unfold registry_ok, after; simpl. intros k' ls.
    destruct (length (set_delete ls0 l) =? 0)%nat eqn:Hlen.
    + destruct (decide (k = k')) as [<-|Hne].
      * by rewrite lookup_delete_eq.
      * rewrite lookup_delete_ne by done. apply Hok.
    + destruct (decide (k = k')) as [<-|Hne].
      * rewrite lookup_insert_eq. intros [= <-]. split.
        -- apply set_delete_NoDup. by apply (Hok k ls0).
        -- intros E0. rewrite E0 in Hlen. discriminate Hlen.
      * rewrite lookup_insert_ne by done. apply Hok.
Qed.

Lemma run_registry_ok (env : Env) (sseUrl : string) (inputs : list Input) :
  registry_ok (run env sseUrl inputs initialHub).
Proof.
  apply run_invariant.
  - intros h input. apply registry_ok_step.
  - intros k ls. unfold initialHub; simpl. by rewrite lookup_empty.
Qed.

(** X13. Whatever happens to a provider, every kind in its registry has at
    least one listener and has none twice: subscribing a listener again
    adds nothing, and the kind whose last listener unsubscribes is removed
    from the registry. *)
Theorem registry_sets_are_duplicate_free (env : Env) (sseUrl : string)
    (inputs : list Input) (eventType : SSEEventType)
    (listeners : list EventListener) :
  listenersRef (run env sseUrl inputs initialHub) !! eventType
    = Some listeners ->
  NoDup listeners /\ listeners <> [].
Proof. apply run_registry_ok. Qed.

Lemma registry_sets_are_duplicate_free_witness :
  NoDup [0%nat; 1%nat; 2%nat] /\ [0%nat; 1%nat; 2%nat] <> [].
Proof.
  apply (registry_sets_are_duplicate_free Scenario.page "/events/sse"
    [ TimerFired; Opened; Subscribed task_progress 0;
      Subscribed task_progress 1; Subscribed task_progress 0;
      Subscribed task_progress 2; Subscribed heartbeat 3;
      Unsubscribed heartbeat 3 ] task_progress).
  vm_compute. reflexivity.
Defined.

(** *** Subscribing and unsubscribing *)

Lemma set_delete_fresh (l : list EventListener) (x : EventListener) :
  x ∉ l -> set_delete (l ++ [x]) x = l.
Proof.
  intros Hx. unfold set_delete. rewrite List.filter_app. simpl.
  rewrite Nat.eqb_refl. simpl. rewrite app_nil_r.
  induction l as [|y l IH]; [reflexivity|]. simpl.
  apply not_elem_of_cons in Hx as [Hne Hx].
  destruct (Nat.eqb_spec y x) as [->|_]; [done|]. simpl. by rewrite IH.
Qed.

(** X14. On a running provider, subscribing a listener that is not
    subscribed to a kind and then calling the closure that subscribing
    returned puts the registry back exactly as it was. *)
Theorem subscribe_then_unsubscribe_restores (env : Env) (sseUrl : string)
    (inputs : list Input) (eventType : SSEEventType)
    (listener : EventListener) :
  let h := run env sseUrl inputs initialHub in
  listener ∉ default [] (listenersRef h !! eventType) ->
  after (removeEventListener eventType listener)
    (after (addEventListener eventType listener) h) = h.
Proof.
  intros h Hfresh.
  pose proof (run_registry_ok env sseUrl inputs) as Hok. fold h in Hok.
  rewrite addEventListener_after, removeEventListener_after.
  unfold after at 1 2 3; simpl. rewrite lookup_insert_eq.
  unfold set_add. rewrite bool_decide_eq_false_2 by exact Hfresh.
  rewrite (set_delete_fresh _ _ Hfresh).
  destruct (listenersRef h !! eventType) as [ls|] eqn:E; simpl.
  - destruct (Hok eventType ls E) as [_ Hne].
    destruct ls as [|l0 ls]; [done|]. simpl.
    unfold after; simpl. rewrite insert_insert_eq, (insert_id _ _ _ E).
    by destruct h.
  - unfold after; simpl. rewrite delete_insert_eq, (delete_id _ _ E).
    by destruct h.
Qed.

Lemma subscribe_then_unsubscribe_restores_witness :
  after (removeEventListener task_progress 7)
    (after (addEventListener task_progress 7)
       (run Scenario.page "/events/sse"
          [TimerFired; Opened; Subscribed task_progress 0] initialHub))
  = run Scenario.page "/events/sse"
      [TimerFired; Opened; Subscribed task_progress 0] initialHub.
Proof.
  apply (subscribe_then_unsubscribe_restores Scenario.page "/events/sse"
           [TimerFired; Opened; Subscribed task_progress 0] task_progress 7).
  vm_compute. intros H. repeat (inversion H as [|? ? ? H']; clear H;
    rename H' into H).
Defined.

(** X15. Subscribing a listener to a kind twice is subscribing it once:
    the second call changes nothing, and the listener stays where it was in
    the order of its kind. *)
Theorem subscribe_is_idempotent (eventType : SSEEventType)
    (listener : EventListener) (h : Hub) :
  after (addEventListener eventType listener)
    (after (addEventListener eventType listener) h)
  = after (addEventListener eventType listener) h.
Proof.
  rewrite !addEventListener_after. unfold after; simpl.
  rewrite lookup_insert_eq. simpl.
  by rewrite set_add_idempotent, insert_insert_eq.
Qed.

Lemma deliveries_registered (parse : string -> outcome value)
    (registry : gmap SSEEventType (list EventListener))
    (events : list (SSEEventType * string)) (l : EventListener)
    (e : SSEEvent) :
  In (l, e) (deliveries parse registry events) ->
  l ∈ default [] (registry !! type e).
Proof.
  induction events as [|[k text] events IH]; [intros []|].
  cbn [deliveries]. rewrite in_app_iff. intros [H|H]; [|by apply IH].
  destruct (parse text) as [d|]; [|destruct H].
  apply in_map_iff in H as (l' & [= -> <-] & Hin). simpl.
  by apply list_elem_of_In.
Qed.

(** X16. After a listener is unsubscribed from a kind it is called with no
    further event of that kind, whatever arrives. *)
Theorem unsubscribed_listener_is_not_called (env : Env)
    (eventType : SSEEventType) (listener : EventListener) (h : Hub)
    (events : list (SSEEventType * string)) (e : SSEEvent) :
  let h' := after (removeEventListener eventType listener) h in
  In (listener, e)
     (drop (length (invoked h')) (invoked (messages env events h'))) ->
  type e <> eventType.
Proof.
  intros h'. destruct (messages_run env events h') as (-> & _ & _).
  rewrite drop_app_length. intros Hin.
  apply deliveries_registered in Hin. intros Ht. rewrite Ht in Hin.
  subst h'. rewrite removeEventListener_lookup in Hin.
  destruct (listenersRef h !! eventType) as [ls|]; simpl in Hin;
    [|by apply not_elem_of_nil in Hin].
  destruct (length (set_delete ls listener) =? 0)%nat; simpl in Hin;
    [by apply not_elem_of_nil in Hin|].
  apply list_elem_of_In in Hin. by apply set_delete_gone in Hin.
Qed.

Lemma unsubscribed_listener_is_not_called_witness :
  let h' := after (removeEventListener heartbeat 0)
              (after (addEventListener heartbeat 0) Scenario.subscribed) in
  let e := {| type := task_progress; data := VObject [] |} in
  In (0%nat, e)
     (drop (length (invoked h'))
        (invoked (messages Scenario.page
                    [(task_progress, "{}"); (heartbeat, "{}")] h'))) /\
  type e <> heartbeat.
Proof.
  split; [vm_compute; tauto|].
  apply (unsubscribed_listener_is_not_called Scenario.page heartbeat 0
           (after (addEventListener heartbeat 0) Scenario.subscribed)
           [(task_progress, "{}"); (heartbeat, "{}")]
           {| type := task_progress; data := VObject [] |}).
  vm_compute. tauto.
Defined.

Lemma calls_to_registered (l : EventListener) (e : SSEEvent)
    (ls : list EventListener) :
  NoDup ls ->
  calls_to l (map (fun l' => (l', e)) ls) =
  if bool_decide (l ∈ ls) then [(l, e)] else [].
Proof.
  unfold calls_to. induction ls as [|x ls IH]; intros Hnd; [reflexivity|].
  apply NoDup_cons in Hnd as [Hx Hnd]. simpl. rewrite (IH Hnd).
  destruct (Nat.eqb_spec x l) as [->|Hne].
  - rewrite (bool_decide_eq_false_2 (l ∈ ls)) by exact Hx.
    rewrite (bool_decide_eq_true_2 (l ∈ l :: ls)); [reflexivity|].
    apply elem_of_cons. by left.
  - destruct (decide (l ∈ ls)) as [Hin|Hout].
    + rewrite (bool_decide_eq_true_2 (l ∈ ls)) by exact Hin.
      rewrite (bool_decide_eq_true_2 (l ∈ x :: ls)); [reflexivity|].
      apply elem_of_cons. by right.
    + rewrite (bool_decide_eq_false_2 (l ∈ ls)) by exact Hout.
      rewrite (bool_decide_eq_false_2 (l ∈ x :: ls)); [reflexivity|].
      intros [->|H]%elem_of_cons; done.
Qed.

(** X17. On a running provider, an event whose text parses is delivered
    exactly once to each listener subscribed to its kind, and not at all to
    a listener subscribed to other kinds only. *)
Theorem event_is_delivered_once (env : Env) (sseUrl : string)
    (inputs : list Input) (eventType : SSEEventType) (text : string)
    (data : value) (listener : EventListener) :
  let h := run env sseUrl inputs initialHub in
  JSON_parse env text = Returns data ->
  calls_to listener
    (drop (length (invoked h))
       (invoked (after (onmessage env eventType text) h))) =
  if bool_decide (listener ∈ default [] (listenersRef h !! eventType))
  then [(listener, {| type := eventType; data := data |})]
  else [].
Proof.
  intros h Hparse.
  destruct (onmessage_run env eventType text h) as (_ & -> & _).
  rewrite drop_app_length. cbn [deliveries]. rewrite Hparse, app_nil_r.
  apply calls_to_registered.
  pose proof (run_registry_ok env sseUrl inputs) as Hok. fold h in Hok.
  destruct (listenersRef h !! eventType) as [ls|] eqn:E; simpl;
    [by apply (Hok eventType ls)|apply NoDup_nil_2].
Qed.

Lemma event_is_delivered_once_witness :
  let h := run Scenario.page "/events/sse"
             [ TimerFired; Opened; Subscribed task_progress 0;
               Subscribed task_progress 1; Subscribed task_progress 2;
               Subscribed heartbeat 3 ] initialHub in
  calls_to 2
    (drop (length (invoked h))
       (invoked (after (onmessage Scenario.page task_progress "{}") h)))
  = [(2%nat, {| type := task_progress; data := VObject [] |})].
Proof.
  intros h. subst h.
  rewrite (event_is_delivered_once Scenario.page "/events/sse"
    [ TimerFired; Opened; Subscribed task_progress 0;
      Subscribed task_progress 1; Subscribed task_progress 2;
      Subscribed heartbeat 3 ] task_progress "{}" (VObject []) 2 eq_refl).
  vm_compute. reflexivity.
Defined.

Lemma onmessage_lastEvent (env : Env) (eventType : SSEEventType)
    (text : string) (h : Hub) :
  lastEvent (after (onmessage env eventType text) h) =
  match JSON_parse env text with
  | Returns data => Some {| type := eventType; data := data |}
  | Throws _ => lastEvent h
  end.
Proof.
  destruct (JSON_parse env text) as [data|reason] eqn:Hparse.
  - unfold after, onmessage, try_catch, bind at 1, await. rewrite Hparse.
    unfold bind, setLastEvent, modify.
    match goal with
    | |- context [notifyListeners env ?e ?h'] =>
      destruct (notifyListeners_run env e h') as (Hr & _ & Ha);
      destruct (notifyListeners env e h') as [o h1]
    end.
    simpl in *. subst o. simpl.
    unfold apart_from_calls in Ha. simpl in Ha. congruence.
  - unfold after.
    by rewrite (onmessage_malformed env eventType text reason h Hparse).
Qed.

(** X18. After any run of incoming events, [lastEvent] is the last event
    whose text parsed, or what it was when none did: a text that does not
    parse and a listener that throws leave it alone. *)
Theorem lastEvent_is_latest_parsed (env : Env)
    (events : list (SSEEventType * string)) (h : Hub) :
  lastEvent (messages env events h) =
  latest (JSON_parse env) events (lastEvent h).
Proof.
  revert h. induction events as [|[eventType text] events IH]; intros h;
    [reflexivity|].
  cbn [messages latest]. by rewrite IH, onmessage_lastEvent.
Qed.

(** *** The connection *)

Lemma connect_result (env : Env) (sseUrl : string) (h : Hub) :
  let h' := after (connect env sseUrl) h in
  fst (connect env sseUrl h) = Returns tt /\
  (isConnected h', listenersRef h', reconnectTimeoutRef h',
   reconnectAttemptsRef h', scheduled h', cleared h', lastEvent h',
   invoked h')
  = (isConnected h, listenersRef h, reconnectTimeoutRef h,
     reconnectAttemptsRef h, scheduled h, cleared h, lastEvent h,
     invoked h) /\
  closed h' = closed h ++ option_list (eventSourceRef h) /\
  match new_EventSource env sseUrl with
  | Returns _ =>
    eventSourceRef h' = Some (opened h) /\ opened h' = S (opened h) /\
    connectionError h' = connectionError h
  | Throws reason =>
    eventSourceRef h' = eventSourceRef h /\ opened h' = opened h /\
    connectionError h' = Some reason
  end.
Proof.
  unfold after, connect, bind, try_catch, newEventSource, gets, bind, await;
    simpl.
  destruct (eventSourceRef h) eqn:E; simpl;
    destruct (new_EventSource env sseUrl); simpl;
    rewrite ?E, ?app_nil_r; done.
Qed.

Lemma sources_ok_step (env : Env) (sseUrl : string) (h : Hub)
    (input : Input) :
  sources_ok h -> sources_ok (after (handle env sseUrl input) h).
Proof.
  intros [Hcur Hall]. destruct input as [| | |k text|k l|k l]; cbn [handle].
  - done.
  - done.
  - destruct (connect_result env sseUrl h) as (_ & _ & Hclosed & Hnew).
    unfold sources_ok. rewrite Hclosed.
    destruct (new_EventSource env sseUrl).
    + destruct Hnew as (-> & -> & _). split.
      * intros id [= <-]. lia.
      * intros id Hid. destruct (decide (id = opened h)) as [->|Hne];
          [by left|].
        right. apply in_app_iff.
        destruct (Hall id ltac:(lia)) as [E|Hin]; [|by left].
        right. rewrite E. by left.
    + destruct Hnew as (-> & -> & _). split; [exact Hcur|].
      intros id Hid. destruct (Hall id Hid) as [E|Hin]; [by left|].
      right. apply in_app_iff. by left.
  - pose proof (onmessage_frame env k text h) as Hf. unfold frame in Hf.
    unfold sources_ok.
    assert (eventSourceRef (after (onmessage env k text) h)
            = eventSourceRef h) as -> by congruence.
    assert (opened (after (onmessage env k text) h) = opened h) as ->
      by congruence.
    assert (closed (after (onmessage env k text) h) = closed h) as ->
      by congruence.
    done.
  - by rewrite addEventListener_after.
  - rewrite removeEventListener_after.
    by destruct (listenersRef h !! k).
Qed.

Lemma run_sources_ok (env : Env) (sseUrl : string) (inputs : list Input) :
  sources_ok (run env sseUrl inputs initialHub).
Proof.
  apply run_invariant.
  - intros h input. apply sources_ok_step.
  - split; [discriminate|]. unfold initialHub; simpl. lia.
Qed.

(** X19. Whatever happens to a provider, it holds at most one event source
    that is not closed: every event source it ever opened, other than the
    one it holds, has been closed. *)
Theorem one_live_event_source (env : Env) (sseUrl : string)
    (inputs : list Input) (id : nat) :
  let h := run env sseUrl inputs initialHub in
  (id < opened h)%nat ->
  eventSourceRef h = Some id \/ In id (closed h).
Proof. intros h. apply run_sources_ok. Qed.

Lemma one_live_event_source_witness :
  In 0%nat
     (closed (run Scenario.page "/events/sse"
                [TimerFired; Failed; TimerFired; Opened] initialHub)).
Proof.
  destruct (one_live_event_source Scenario.page "/events/sse"
              [TimerFired; Failed; TimerFired; Opened] 0) as [H|H].
  - vm_compute. lia.
  - discriminate H.
  - exact H.
Defined.

(** X20. When the event source cannot be constructed, [connect] does not
    throw and does not retry: it records the error, schedules no timer,
    leaves the attempt counter alone, and the provider keeps holding the
    event source it has just closed. *)
Theorem failed_construction_is_not_retried (env : Env) (sseUrl : string)
    (reason : string) (h : Hub) :
  new_EventSource env sseUrl = Throws reason ->
  let h' := after (connect env sseUrl) h in
  fst (connect env sseUrl h) = Returns tt /\
  connectionError h' = Some reason /\
  scheduled h' = scheduled h /\
  reconnectTimeoutRef h' = reconnectTimeoutRef h /\
  reconnectAttemptsRef h' = reconnectAttemptsRef h /\
  isConnected h' = isConnected h /\
  eventSourceRef h' = eventSourceRef h /\
  opened h' = opened h /\
  (forall id, eventSourceRef h = Some id -> In id (closed h')).
Proof.
  intros Hnew h'. subst h'.
  destruct (connect_result env sseUrl h) as (Hr & Hsame & Hclosed & Hcase).
  rewrite Hnew in Hcase. destruct Hcase as (Hes & Hop & Herr).
  injection Hsame as Hc _ Ht Ha Hs _ _ _.
  repeat split; try done.
  intros id E. rewrite Hclosed, E. apply in_app_iff. right. by left.
Qed.

Lemma failed_construction_is_not_retried_witness :
  connectionError
    (after (connect Scenario.bad_url_page "::") Scenario.subscribed)
  = Some "SyntaxError: Failed to construct 'EventSource'" /\
  scheduled (after (connect Scenario.bad_url_page "::") Scenario.subscribed)
  = [].
Proof.
  destruct (failed_construction_is_not_retried Scenario.bad_url_page "::"
              "SyntaxError: Failed to construct 'EventSource'"
              Scenario.subscribed eq_refl) as (_ & He & Hs & _).
  split; [exact He|exact Hs].
Defined.

Lemma counting_ok_step (env : Env) (sseUrl : string) (h : Hub)
    (input : Input) :
  counting_ok h -> counting_ok (after (handle env sseUrl input) h).
Proof.
  intros Hok. destruct input as [| | |k text|k l|k l]; cbn [handle].
  - intros H. by destruct H.
  - intros _. split; [reflexivity|]. by eexists.
  - destruct (connect_result env sseUrl h) as (_ & Hsame & _ & Hnew).
    injection Hsame as Hc _ _ Ha _ _ _ _.
    unfold counting_ok. rewrite Hc, Ha. intros H.
    destruct (Hok H) as [Hi He]. split; [exact Hi|].
    destruct (new_EventSource env sseUrl).
    + destruct Hnew as (_ & _ & ->). exact He.
    + destruct Hnew as (_ & _ & ->). by eexists.
  - pose proof (onmessage_frame env k text h) as Hf. unfold frame in Hf.
    unfold counting_ok.
    assert (isConnected (after (onmessage env k text) h) = isConnected h)
      as -> by congruence.
    assert (connectionError (after (onmessage env k text) h)
            = connectionError h) as -> by congruence.
    assert (reconnectAttemptsRef (after (onmessage env k text) h)
            = reconnectAttemptsRef h) as -> by congruence.
    exact Hok.
  - by rewrite addEventListener_after.
  - rewrite removeEventListener_after.
    by destruct (listenersRef h !! k).
Qed.

(** X21. Whatever happens to a provider, while its attempt counter is not
    0 it reports itself disconnected and holds a connection error; put the
    other way, a provider that reports itself connected has a counter of
    0. *)
Theorem counting_provider_is_disconnected (env : Env) (sseUrl : string)
    (inputs : list Input) :
  let h := run env sseUrl inputs initialHub in
  (reconnectAttemptsRef h <> 0%nat ->
   isConnected h = false /\ is_Some (connectionError h)) /\
  (isConnected h = true -> reconnectAttemptsRef h = 0%nat).
Proof.
  intros h.
  assert (Hok : counting_ok h).
  { apply run_invariant; [intros ? ?; apply counting_ok_step|].
    intros H. by destruct H. }
  split; [exact Hok|]. intros Hc.
  destruct (decide (reconnectAttemptsRef h = 0%nat)) as [|Hne]; [done|].
  destruct (Hok Hne) as [Hd _]. congruence.
Qed.

Lemma backoffDelay_bounds (n k : nat) :
  (1000 <= backoffDelay n <= backoffDelay (n + k))%Z /\
  (backoffDelay (n + k) <= 30000)%Z.
Proof.
  rewrite !backoffDelay_min.
  assert (0 < 2 ^ Z.of_nat n)%Z by (apply Z.pow_pos_nonneg; lia).
  assert (2 ^ Z.of_nat n <= 2 ^ Z.of_nat (n + k))%Z
    by (apply Z.pow_le_mono_r; lia).
  lia.
Qed.

(** X23. The back-off never goes below 1000 ms or above 30000 ms, and a
    later attempt never waits less than an earlier one. *)
Theorem backoff_is_bounded_and_monotone (n k : nat) :
  (1000 <= backoffDelay n)%Z /\
  (backoffDelay n <= backoffDelay (n + k))%Z /\
  (backoffDelay (n + k) <= 30000)%Z.
Proof. pose proof (backoffDelay_bounds n k). lia. Qed.

Lemma scheduled_bounded_step (env : Env) (sseUrl : string) (h : Hub)
    (input : Input) :
  Forall (fun d => 1000 <= d <= 30000)%Z (scheduled h) ->
  Forall (fun d => 1000 <= d <= 30000)%Z
    (scheduled (after (handle env sseUrl input) h)).
Proof.
  intros Hok. destruct input as [| | |k text|k l|k l]; cbn [handle].
  - exact Hok.
  - unfold after, onerror, bind, gets; simpl.
    apply Forall_app. split; [exact Hok|]. apply Forall_singleton.
    pose proof (backoffDelay_bounds (reconnectAttemptsRef h) 0).
    rewrite Nat.add_0_r in *. lia.
  - by destruct (connect_keeps_backoff env sseUrl h) as [_ ->].
  - pose proof (onmessage_frame env k text h) as Hf. unfold frame in Hf.
    assert (scheduled (after (onmessage env k text) h) = scheduled h) as ->
      by congruence.
    exact Hok.
  - by rewrite addEventListener_after.
  - rewrite removeEventListener_after.
    by destruct (listenersRef h !! k).
Qed.

(** X22. Every reconnection a provider ever schedules is scheduled between
    one second and thirty seconds ahead, and the timer the provider holds
    is the one it scheduled last. *)
Theorem scheduled_delays_are_bounded (env : Env) (sseUrl : string)
    (inputs : list Input) :
  let h := run env sseUrl inputs initialHub in
  Forall (fun d => 1000 <= d <= 30000)%Z (scheduled h) /\
  reconnectTimeoutRef h =
    (if scheduled h is [] then None else Some (length (scheduled h) - 1)%nat).
Proof.
  intros h. split.
  - apply run_invariant; [intros ? ?; apply scheduled_bounded_step|].
    apply Forall_nil_2.
  - apply (run_invariant env sseUrl (fun h =>
      reconnectTimeoutRef h =
      (if scheduled h is [] then None
       else Some (length (scheduled h) - 1)%nat))); [|reflexivity].
    clear. intros h input Hok.
    destruct input as [| | |k text|k l|k l]; cbn [handle].
    + exact Hok.
    + unfold after, onerror, bind, gets; simpl.
      rewrite length_app. simpl.
      destruct (scheduled h); simpl; f_equal; lia.
    + destruct (connect_result env sseUrl h) as (_ & Hsame & _).
      injection Hsame as _ _ Ht _ Hs _ _ _. by rewrite Ht, Hs.
    + pose proof (onmessage_frame env k text h) as Hf. unfold frame in Hf.
      assert (scheduled (after (onmessage env k text) h) = scheduled h)
        as -> by congruence.
      assert (reconnectTimeoutRef (after (onmessage env k text) h)
              = reconnectTimeoutRef h) as -> by congruence.
      exact Hok.
    + by rewrite addEventListener_after.
    + rewrite removeEventListener_after.
      by destruct (listenersRef h !! k).
Qed.

(** X24. Unmounting a running provider leaves no event source open: the
    one it held is closed and forgotten, every other one it had opened was
    closed already, its pending timer is cleared, and it reports itself
    disconnected; its registry is kept. *)
Theorem cleanup_closes_every_source (env : Env) (sseUrl : string)
    (inputs : list Input) :
  let h := run env sseUrl inputs initialHub in
  let h' := after cleanup h in
  fst (cleanup h) = Returns tt /\
  eventSourceRef h' = None /\ isConnected h' = false /\
  (forall id, (id < opened h')%nat -> In id (closed h')) /\
  (forall timer, reconnectTimeoutRef h = Some timer -> In timer (cleared h')) /\
  listenersRef h' = listenersRef h.
Proof.
  intros h h'. subst h'.
  destruct (run_sources_ok env sseUrl inputs) as [_ Hall]. fold h in Hall.
  unfold after, cleanup, bind, gets, clearReconnectTimeout, closeEventSource,
    setEventSource, setIsConnected, modify, ret; simpl.
  destruct (reconnectTimeoutRef h) as [timer|] eqn:Ht; simpl;
    destruct (eventSourceRef h) as [source|] eqn:Es; simpl;
    rewrite ?Ht, ?Es; simpl; repeat split; try done.
  all: try (intros id Hid; destruct (Hall id Hid) as [[= <-]|Hin];
            apply in_app_iff; [right; by left|by left]).
  all: try (intros id Hid; destruct (Hall id Hid) as [E|Hin];
            [discriminate E|exact Hin]).
  all: intros t [= <-]; apply in_app_iff; right; by left.
Qed.
End HubFacts.
